(** * A stamp ledger: blocks chained by SHA-256 and admitted by proof of work

    Shallow embedding of [blockchain_server.py]: the [Blockchain] class
    ([new_block], [new_entry], [hash], [last_block], [proof_of_work],
    [valid_proof]) and the two routes that change it ([mine],
    [new_transaction]).

    Conventions.
    - A Python [int] is a [Z]; a Python [float] is a binary64 [float].
    - A Python [str] is a [string] holding its UTF-8 encoding, so that
      [str.encode()] is the identity on the bytes and the order of
      [String.compare] is the order of Python on code points.
    - A Python [dict] is the list of its items in insertion order.
    - The list objects bound to [current_data] and to a block's ['data'] live
      in a store ([heap]); a block holds the address of its list, as the
      Python block holds a reference.
    - [time()] is an input: the operations that read the clock take the
      reading as an argument.
    - [while] loops run on fuel; running out of fuel is an outcome of its own
      ([Diverge]), distinct from a value and from an exception. *)

From Stdlib Require Import ZArith NArith List String Ascii Uint63 PrimFloat SpecFloat FloatOps.
From Stdlib Require Import DecimalString DecimalFacts DecimalPos.
From stdpp Require Import base tactics option list strings sorting.
Import ListNotations.

Local Open Scope Z_scope.
Local Open Scope string_scope.

(** ** SHA-256 (FIPS 180-4), what [hashlib.sha256] computes

    Words of 32 bits are held in 63-bit machine integers and masked after
    every addition and left shift. *)
Module SHA256.
Local Open Scope uint63_scope.

Definition mask32 : int := 0xffffffff.
Definition add32 (x y : int) : int := (x + y) land mask32.
Definition rotr (n x : int) : int := (x >> n) lor ((x << (32 - n)) land mask32).
Definition Ch (x y z : int) : int := (x land y) lxor ((x lxor mask32) land z).
Definition Maj (x y z : int) : int := ((x land y) lxor (x land z)) lxor (y land z).
Definition Sigma0 (x : int) : int := (rotr 2 x lxor rotr 13 x) lxor rotr 22 x.
Definition Sigma1 (x : int) : int := (rotr 6 x lxor rotr 11 x) lxor rotr 25 x.
Definition sigma0 (x : int) : int := (rotr 7 x lxor rotr 18 x) lxor (x >> 3).
Definition sigma1 (x : int) : int := (rotr 17 x lxor rotr 19 x) lxor (x >> 10).

(** The constants of the standard are the first 32 bits of the fractional
    parts of roots of the first primes: cube roots of the first 64 for the
    round constants, square roots of the first 8 for the initial hash. They
    are computed here once and stored as numerals. *)
Definition is_prime (n : nat) : bool :=
  forallb (fun d => negb (Nat.eqb (Nat.modulo n d) 0)) (seq 2 (n - 2)).

Definition primes (count : nat) : list Z :=
  map Z.of_nat (firstn count (filter is_prime (seq 2 310))).

(** The integer cube root, bit by bit from bit [k - 1] down. *)
Fixpoint cube_root_from (k : nat) (n r : Z) : Z :=
  match k with
  | O => r
  | S k' =>
      let c := Z.lor r (Z.shiftl 1 (Z.of_nat k')) in
      cube_root_from k' n (if (c * c * c <=? n)%Z then c else r)
  end.

Definition frac32_cube_root (p : Z) : int :=
  of_Z (Z.land (cube_root_from 36 (Z.shiftl p 96) 0) 0xffffffff).

Definition frac32_square_root (p : Z) : int :=
  of_Z (Z.land (Z.sqrt (Z.shiftl p 64)) 0xffffffff).

Definition K : list int := Eval vm_compute in map frac32_cube_root (primes 64).

Definition H0 : list int := Eval vm_compute in map frac32_square_root (primes 8).

(** The four bytes of a word, most significant first. *)
Definition be32 (x : int) : list int :=
  [(x >> 24) land 255; (x >> 16) land 255; (x >> 8) land 255; x land 255].

Fixpoint zeros (n : nat) (k : list int) : list int :=
  match n with O => k | S n' => 0 :: zeros n' k end.

(** Padding: the message, the byte 0x80, zero bytes up to 56 modulo 64, then
    the bit length on 64 bits. [len] counts the bits passed so far and [room]
    the bytes left in the current 64-byte block after the 0x80 marker. *)
Fixpoint pad_from (msg : list int) (len : int) (room : nat) : list int :=
  match msg with
  | b :: r => b :: pad_from r (len + 8) (match room with O => 63%nat | S k => k end)
  | [] => 128 :: zeros (match room with
                       | S (S (S (S (S (S (S (S k))))))) => k
                       | _ => (room + 56)%nat
                       end)
                 (be32 (len >> 32) ++ be32 (len land mask32))%list
  end.

Definition pad (msg : list int) : list int := pad_from msg 0 63.

Fixpoint words (bs : list int) : list int :=
  match bs with
  | b0 :: b1 :: b2 :: b3 :: r =>
      ((b0 << 24) lor (b1 << 16) lor (b2 << 8) lor b3) :: words r
  | _ => []
  end.

(** The message schedule, newest word first:
    W(t) = sigma1 W(t-2) + W(t-7) + sigma0 W(t-15) + W(t-16). *)
Definition next_w (w : list int) : int :=
  match w with
  | _ :: w2 :: _ :: _ :: _ :: _ :: w7 :: _ :: _ :: _ :: _ :: _ :: _ :: _ :: w15 :: w16 :: _ =>
      add32 (add32 (sigma1 w2) w7) (add32 (sigma0 w15) w16)
  | _ => 0
  end.

Definition round (s : list int) (k w : int) : list int :=
  match s with
  | [a; b; c; d; e; f; g; h] =>
      let t1 := add32 (add32 (add32 h (Sigma1 e)) (add32 (Ch e f g) k)) w in
      let t2 := add32 (Sigma0 a) (Maj a b c) in
      [add32 t1 t2; a; b; c; add32 d t1; e; f; g]
  | _ => s
  end.

(** Rounds 0..15 take their word from the block, rounds 16..63 from the
    schedule. *)
Fixpoint rounds (ks blk w s : list int) : list int :=
  match ks with
  | [] => s
  | k :: ks' =>
      match blk with
      | x :: blk' => rounds ks' blk' (x :: w) (round s k x)
      | [] => let x := next_w w in rounds ks' [] (x :: w) (round s k x)
      end
  end.

Definition compress (h blk : list int) : list int :=
  map (fun p => add32 (fst p) (snd p)) (combine h (rounds K blk [] h)).

Fixpoint blocks (n : nat) (ws h : list int) : list int :=
  match n with
  | O => h
  | S n' =>
      match ws with
      | [] => h
      | _ => blocks n' (skipn 16 ws) (compress h (firstn 16 ws))
      end
  end.

Definition digest (msg : list int) : list int :=
  let ws := words (pad msg) in
  flat_map be32 (blocks (List.length ws) ws H0).

End SHA256.

(** ** Text: bytes, hexadecimal, decimal *)

(** [str.encode()]: the bytes of a string. *)
Definition encode (s : string) : list int :=
  let bit (b : bool) (v : int) : int := if b then v else 0%uint63 in
  map (fun c : ascii =>
         let 'Ascii b0 b1 b2 b3 b4 b5 b6 b7 := c in
         (bit b0 1 + bit b1 2 + bit b2 4 + bit b3 8
          + bit b4 16 + bit b5 32 + bit b6 64 + bit b7 128)%uint63)
      (list_ascii_of_string s).

Definition hex_chars : list ascii := list_ascii_of_string "0123456789abcdef".

Definition hexdigit (n : N) : ascii := nth (N.to_nat n) hex_chars "0"%char.

(** [hashlib.sha256(bs).hexdigest()]: two lowercase hexadecimal digits per
    byte of the digest. *)
Fixpoint hex (bs : list int) : string :=
  match bs with
  | [] => EmptyString
  | b :: r =>
      let n := Z.to_N (Uint63.to_Z b) in
      String (hexdigit (N.shiftr n 4)) (String (hexdigit (N.land n 15)) (hex r))
  end.

Definition sha256_hexdigest (bs : list int) : string := hex (SHA256.digest bs).

(** [p in s] on two [str]: [p] occurs in [s]. *)
Fixpoint is_substring (p s : string) : bool :=
  String.prefix p s
  || match s with
     | EmptyString => false
     | String _ s' => is_substring p s'
     end.

(** [str(n)], also what [f'{n}'] and [json.dumps] print for an [int]. The
    bound that CPython 3.11 and later put on the number of digits
    ([sys.set_int_max_str_digits], 4300 unless changed) is left out. *)
Definition str_of_int (n : Z) : string := NilZero.string_of_int (Z.to_int n).

(** ** [json.dumps(obj, sort_keys=True)]

    The encoder of CPython with its defaults: items separated by a comma and
    a space, keys by a colon and a space, [ensure_ascii] on. *)
Module Json.

Definition quote : string := String "034"%char EmptyString.
Definition backslash : string := String "092"%char EmptyString.

(** The code points of a string held as UTF-8: a continuation byte
    (10xxxxxx) adds six bits to the code point under way, any other byte
    starts a new one. *)
Definition lead_payload (b : N) : N :=
  if (b <? 0x80)%N then b
  else if (b <? 0xE0)%N then N.land b 0x1F
  else if (b <? 0xF0)%N then N.land b 0x0F
  else N.land b 0x07.

Fixpoint code_points_from (cur : N) (s : string) : list N :=
  match s with
  | EmptyString => [cur]
  | String c r =>
      let b := N_of_ascii c in
      if ((0x80 <=? b) && (b <? 0xC0))%N
      then code_points_from (cur * 64 + N.land b 0x3F)%N r
      else cur :: code_points_from (lead_payload b) r
  end.

Definition code_points (s : string) : list N :=
  match s with
  | EmptyString => []
  | String c r => code_points_from (lead_payload (N_of_ascii c)) r
  end.

(** [backslash u] and four lowercase hexadecimal digits. *)
Definition u_escape (n : N) : string :=
  backslash ++ "u"
  ++ string_of_list_ascii
       [hexdigit (N.land (N.shiftr n 12) 15); hexdigit (N.land (N.shiftr n 8) 15);
        hexdigit (N.land (N.shiftr n 4) 15); hexdigit (N.land n 15)].

(** [py_encode_basestring_ascii]: the quote and the backslash are escaped,
    five control characters have a short escape, the printable ASCII range
    (space to tilde) stands for itself, everything else is written as UTF-16
    code units. *)
Definition escape (n : N) : string :=
  if (n =? 0x22)%N then backslash ++ quote
  else if (n =? 0x5C)%N then backslash ++ backslash
  else if (n =? 8)%N then backslash ++ "b"
  else if (n =? 12)%N then backslash ++ "f"
  else if (n =? 10)%N then backslash ++ "n"
  else if (n =? 13)%N then backslash ++ "r"
  else if (n =? 9)%N then backslash ++ "t"
  else if ((0x20 <=? n) && (n <=? 0x7E))%N then String (ascii_of_N n) EmptyString
  else if (n <? 0x10000)%N then u_escape n
  else
    let v := (n - 0x10000)%N in
    u_escape (N.lor 0xD800 (N.land (N.shiftr v 10) 0x3FF))
    ++ u_escape (N.lor 0xDC00 (N.land v 0x3FF)).

Definition dumps_str (s : string) : string :=
  quote ++ String.concat "" (map escape (code_points s)) ++ quote.

(** [sorted(dct.items())], as a stable insertion sort on the keys. The keys
    of a dict are distinct, so the comparison of two items never reaches
    their values. *)
Section Sorted.
Context {V : Type}.

Fixpoint insert_item (x : string * V) (l : list (string * V)) : list (string * V) :=
  match l with
  | [] => [x]
  | y :: l' => if String.leb (fst x) (fst y) then x :: l else y :: insert_item x l'
  end.

Definition sorted (l : list (string * V)) : list (string * V) :=
  foldr insert_item [] l.

Definition dumps_dict (dumps_value : V -> string) (d : list (string * V)) : string :=
  "{" ++ String.concat ", "
           (map (fun kv => dumps_str (fst kv) ++ ": " ++ dumps_value (snd kv)) (sorted d))
      ++ "}".

Definition dumps_list (dumps_value : V -> string) (l : list V) : string :=
  "[" ++ String.concat ", " (map dumps_value l) ++ "]".
End Sorted.

End Json.

(** ** Data model *)

(** A JSON value as [request.get_json()] gives it: [None], a [bool], an
    [int], a [float], a [str], a [list] or a [dict] with [str] keys. The
    fields of an entry are annotated [Union[str, int]], but they come from
    the body of a request and nothing checks them, so they range over all of
    these. *)
#[warnings="-register-all"]
Inductive atom : Type :=
  | ANull
  | ABool (b : bool)
  | AInt (n : Z)
  | AFloat (f : float)
  | AStr (s : string)
  | AList (l : list atom)
  | AObj (d : list (string * atom)).

(** [Dict[str, Union[str, int]]], an entry of the ledger. *)
Definition entry : Type := list (string * atom).

(** Addresses of the list objects that hold entries. *)
Abbreviation loc := nat (only parsing).
Abbreviation heap := (list (list entry)) (only parsing).

(** [Union[int, float, str, List[Dict[str, Union[str, int]]]]], the type of a
    block's fields; the list is held by reference. *)
Inductive value : Type :=
  | VInt (n : Z)
  | VFloat (f : float)
  | VStr (s : string)
  | VData (l : loc).

Definition dict : Type := list (string * value).

(** [d[k]] and [k in d]. *)
Fixpoint get {V : Type} (k : string) (d : list (string * V)) : option V :=
  match d with
  | [] => None
  | (k', v) :: d' => if String.eqb k k' then Some v else get k d'
  end.

Definition contains {V : Type} (d : list (string * V)) (k : string) : bool :=
  bool_decide (is_Some (get k d)).

(** A block of the chain. *)
Record block : Type := Block {
  index : Z;
  timestamp : float;
  data : loc;
  proof : Z;
  previous_hash : string;
}.

(** The dict literal of [new_block], in the order it is written. *)
Definition block_items (b : block) : dict :=
  [("index", VInt (index b));
   ("timestamp", VFloat (timestamp b));
   ("data", VData (data b));
   ("proof", VInt (proof b));
   ("previous_hash", VStr (previous_hash b))].

(** The state of the [Blockchain] object and of the lists it refers to. *)
Record state : Type := State {
  store : heap;
  chain : list block;
  current_data : loc;
}.

(** The entries of a list object. *)
Definition deref (h : heap) (l : loc) : list entry := h !!! l.

Definition buffer (s : state) : list entry := deref (store s) (current_data s).

(** A field value with its list read from the store: what [==] and
    [json.dumps] see of it. *)
Inductive content : Type :=
  | CInt (n : Z)
  | CFloat (f : float)
  | CStr (s : string)
  | CList (es : list entry).

Definition content_of (h : heap) (v : value) : content :=
  match v with
  | VInt n => CInt n
  | VFloat f => CFloat f
  | VStr s => CStr s
  | VData l => CList (deref h l)
  end.

Definition keys {V : Type} (d : list (string * V)) : list string := map fst d.

(** The order of two items in [sorted]: the order of their keys. *)
Definition key_le {V : Type} : relation (string * V) :=
  fun x y => String.le (fst x) (fst y).

(** The items of a dict with their lists read from the store. *)
Definition resolve (h : heap) (d : dict) : list (string * content) :=
  map (fun kv => (fst kv, content_of h (snd kv))) d.

(** The value of the field [k] of a dict, if it has one. *)
Definition field (h : heap) (d : dict) (k : string) : option content :=
  content_of h <$> get k d.

(** ** Outcomes and the state monad of the methods *)

Inductive exn : Type := IndexError | KeyError | TypeError.

Inductive outcome (A : Type) : Type :=
  | Ret (a : A)
  | Raise (e : exn)
  | Diverge.
Arguments Ret {A} a.
Arguments Raise {A} e.
Arguments Diverge {A}.

Definition M (A : Type) : Type := state -> outcome A * state.

Definition ret {A} (a : A) : M A := fun s => (Ret a, s).
Definition raise {A} (e : exn) : M A := fun s => (Raise e, s).
Definition diverge {A} : M A := fun s => (Diverge, s).

Definition bind {A B} (m : M A) (k : A -> M B) : M B :=
  fun s =>
    match m s with
    | (Ret a, s') => k a s'
    | (Raise e, s') => (Raise e, s')
    | (Diverge, s') => (Diverge, s')
    end.

Declare Scope ledger_scope.
Delimit Scope ledger_scope with ledger.
Notation "'let*' x ':=' m 'in' k" := (bind m (fun x => k))
  (at level 10, x name, m at level 100, k at level 200) : ledger_scope.
Notation "'do' m 'in' k" := (bind m (fun _ => k))
  (at level 10, m at level 100, k at level 200) : ledger_scope.
Local Open Scope ledger_scope.

Definition gets {A} (f : state -> A) : M A := fun s => (Ret (f s), s).
Definition modify (f : state -> state) : M unit := fun s => (Ret tt, f s).

(** [[]]: a new, empty list object. *)
Definition alloc : M loc :=
  fun s => (Ret (List.length (store s)),
            {| store := (store s ++ [[]])%list; chain := chain s; current_data := current_data s |}).

(** [self.current_data = l]. *)
Definition set_current_data (l : loc) : M unit :=
  modify (fun s => {| store := store s; chain := chain s; current_data := l |}).

(** [self.chain = []]. *)
Definition set_chain (c : list block) : M unit :=
  modify (fun s => {| store := store s; chain := c; current_data := current_data s |}).

(** [self.chain.append(b)]. *)
Definition chain_append (b : block) : M unit :=
  modify (fun s => {| store := store s; chain := (chain s ++ [b])%list; current_data := current_data s |}).

(** [self.current_data.append(e)]: the list object itself is changed. *)
Definition current_data_append (e : entry) : M unit :=
  modify (fun s => {| store := alter (fun es => (es ++ [e])%list) (current_data s) (store s);
                      chain := chain s; current_data := current_data s |}).

(** ** The proof-of-work puzzle *)

Definition valid_proof (last_proof proof : Z) : bool :=
  let guess := encode (str_of_int last_proof ++ str_of_int proof) in
  let guess_hash := sha256_hexdigest guess in
  String.eqb (substring 0 4 guess_hash) "0000".

(** The loop of [proof_of_work], entered with the candidate [proof]. *)
Fixpoint proof_of_work_from (fuel : nat) (last_proof proof : Z) : option Z :=
  match fuel with
  | O => None
  | S fuel' =>
      if negb (valid_proof last_proof proof)
      then proof_of_work_from fuel' last_proof (proof + 1)
      else Some proof
  end.

Definition proof_of_work (fuel : nat) (last_proof : Z) : option Z :=
  proof_of_work_from fuel last_proof 0.

(** ** The ledger *)

(** What [json.dumps] writes for a [float]: [float.__repr__] of a finite
    value, [NaN], [Infinity] and [-Infinity] otherwise. It belongs to the
    interpreter, not to the program, and no property below depends on the
    text it produces. *)
Class FloatRepr : Type := float_repr : float -> string.

(** The instance of CPython: the shortest decimal digits that read back as
    the same float and, among these, the nearest (ties to the even digit),
    laid out as [float.__repr__] does: with an exponent when the point is
    more than 16 places or less than -3 places from the first digit, with a
    point otherwise, and [.0] on a whole value. All arithmetic is exact, on
    integers. *)
Section FloatText.
Local Open Scope Z_scope.

(** [d * 10^k] compared with the fraction [a / den]. *)
Definition decimal_compare (d k a den : Z) : comparison :=
  if 0 <=? k then (d * 10 ^ k * den) ?= a else (d * den) ?= (a * 10 ^ (- k)).

(** The least [j] from [j] on with [den <= num * 10^j]. *)
Fixpoint first_power (fuel : nat) (num den j : Z) : Z :=
  match fuel with
  | O => j
  | S fuel' => if den <=? num * 10 ^ j then j else first_power fuel' num den (j + 1)
  end.

(** The decimal exponent [x] of [num / den]: 10^x <= num / den < 10^(x+1). *)
Definition decimal_exponent (num den : Z) : Z :=
  if den <=? num then Z.of_nat (String.length (str_of_int (num / den))) - 1
  else - first_power 400 num den 1.

Definition floor_scaled (num den k : Z) : Z :=
  if 0 <=? k then num / (den * 10 ^ k) else (num * 10 ^ (- k)) / den.

(** The first count [n] of digits for which a decimal of [n] digits lies
    between [lo / den] and [hi / den], the halfway points to the
    neighbouring floats, which count when [closed]; of the two decimals
    around [num / den], the nearer one that lies there. *)
Fixpoint shortest (fuel : nat) (num lo hi den : Z) (closed : bool) (x n : Z) : Z * Z :=
  let k := x - (n - 1) in
  let l := floor_scaled num den k in
  let u := l + 1 in
  let inside d :=
    match decimal_compare d k lo den, decimal_compare d k hi den with
    | Gt, Lt => true
    | Eq, Lt | Gt, Eq => closed
    | _, _ => false
    end in
  match fuel with
  | O => (l, k)
  | S fuel' =>
      match inside l, inside u with
      | true, true =>
          match decimal_compare (2 * l + 1) k (2 * num) den with
          | Gt => (l, k)
          | Lt => (u, k)
          | Eq => if Z.even l then (l, k) else (u, k)
          end
      | true, false => (l, k)
      | false, true => (u, k)
      | false, false => shortest fuel' num lo hi den closed x (n + 1)
      end
  end.

Fixpoint strip_zeros (fuel : nat) (d k : Z) : Z * Z :=
  match fuel with
  | O => (d, k)
  | S fuel' =>
      if (d mod 10 =? 0) && negb (d =? 0) then strip_zeros fuel' (d / 10) (k + 1) else (d, k)
  end.

(** The digits of the positive float [m * 2^e] and the place of its point:
    the value reads 0.digits * 10^point. The lower neighbour is half as
    far when [m] is a power of two. *)
Definition short_digits (m : positive) (e : Z) : string * Z :=
  let boundary := (Z.pos m =? 2 ^ 52) && (-1074 <? e) in
  let num := 4 * Z.pos m in
  let lo := if boundary then num - 1 else num - 2 in
  let hi := num + 2 in
  let p := if 2 <=? e then 2 ^ (e - 2) else 1 in
  let den := if 2 <=? e then 1 else 2 ^ (2 - e) in
  let x := decimal_exponent (num * p) den in
  let '(d, k) := shortest 17 (num * p) (lo * p) (hi * p) den (Z.even (Z.pos m)) x 1 in
  let '(d, k) := strip_zeros 20 d k in
  let ds := str_of_int d in
  (ds, Z.of_nat (String.length ds) + k).

Fixpoint zero_digits (n : nat) : string :=
  match n with O => EmptyString | S n' => String "0" (zero_digits n') end.

Definition format_short (ds : string) (point : Z) : string :=
  let len := Z.of_nat (String.length ds) in
  let x := point - 1 in
  let sign : string := if x <? 0 then "-" else "+" in
  let pad : string := if Z.abs x <? 10 then "0" else "" in
  let rest : string :=
    if 1 <? len then String "." (substring 1 (String.length ds - 1) ds) else "" in
  let whole := Z.to_nat point in
  if (16 <? point) || (point <=? -4) then
    (substring 0 1 ds ++ rest ++ "e" ++ sign ++ pad ++ str_of_int (Z.abs x))%string
  else if point <=? 0 then ("0." ++ zero_digits (Z.to_nat (- point)) ++ ds)%string
  else if len <=? point then (ds ++ zero_digits (Z.to_nat (point - len)) ++ ".0")%string
  else (substring 0 whole ds ++ "." ++ substring whole (String.length ds - whole) ds)%string.

Definition float_repr_cpython : FloatRepr :=
  fun f =>
    match Prim2SF f with
    | S754_zero s => if s then "-0.0" else "0.0"
    | S754_infinity s => if s then "-Infinity" else "Infinity"
    | S754_nan => "NaN"
    | S754_finite s m e =>
        let '(ds, point) := short_digits m e in
        let sign : string := if s then "-" else "" in
        (sign ++ format_short ds point)%string
    end.
End FloatText.

Section Ledger.
Context `{FloatRepr}.

(** The encoder on a JSON value. The values of a dict are written first and
    the items sorted then, which is the same as sorting first: the order
    looks at the keys only. *)
Fixpoint dumps_atom (a : atom) : string :=
  match a with
  | ANull => "null"
  | ABool b => if b then "true" else "false"
  | AInt n => str_of_int n
  | AFloat f => float_repr f
  | AStr s => Json.dumps_str s
  | AList l => Json.dumps_list dumps_atom l
  | AObj d =>
      Json.dumps_dict (fun text : string => text)
        (map (fun kv => (fst kv, dumps_atom (snd kv))) d)
  end.

Definition dumps_entry (e : entry) : string := Json.dumps_dict dumps_atom e.

Definition dumps_content (c : content) : string :=
  match c with
  | CInt n => str_of_int n
  | CFloat f => float_repr f
  | CStr s => Json.dumps_str s
  | CList es => Json.dumps_list dumps_entry es
  end.

Definition dumps (h : heap) (d : dict) : string :=
  Json.dumps_dict (fun v => dumps_content (content_of h v)) d.

(** [Blockchain.hash] *)
Definition hash (h : heap) (blk : dict) : string :=
  let block_string := encode (dumps h blk) in
  sha256_hexdigest block_string.

(** [Blockchain.last_block]: [self.chain[-1]] *)
Definition last_block : M block :=
  let* c := gets chain in
  match last c with
  | Some b => ret b
  | None => raise IndexError
  end.

(** [x or y] on an optional string: [None] and the empty string are
    false. *)
Definition truthy (x : option string) : option string :=
  match x with
  | Some EmptyString => None
  | _ => x
  end.

(** [Blockchain.new_block] *)
Definition new_block (now : float) (proof : Z) (previous_hash : option string) : M block :=
  let* n := gets (fun s => List.length (chain s)) in
  let* cur := gets current_data in
  let* ph := match truthy previous_hash with
             | Some p => ret p
             | None =>
                 let* b := last_block in
                 let* h := gets store in
                 ret (hash h (block_items b))
             end in
  let blk := {| index := Z.of_nat n + 1;
                timestamp := now;
                data := cur;
                proof := proof;
                previous_hash := ph |} in
  let* l := alloc in
  do set_current_data l in
  do chain_append blk in
  ret blk.

(** [Blockchain.new_entry] *)
Definition new_entry (owner stamp year : atom) : M Z :=
  do current_data_append [("owner", owner); ("stamp", stamp); ("year", year)] in
  let* b := last_block in
  ret (index b + 1).

(** [Blockchain.__init__] *)
Definition __init__ (now : float) : M unit :=
  do set_chain [] in
  let* l := alloc in
  do set_current_data l in
  let* _ := new_block now 100 (Some "1") in
  ret tt.

(** [blockchain = Blockchain()]: the constructor run on an object without
    attributes and an empty store. *)
Definition Blockchain (now : float) : state :=
  snd (__init__ now {| store := []; chain := []; current_data := 0%nat |}).

(** The block that [new_block] builds when [previous_hash] is left out. *)
Definition sealed (s : state) (now : float) (p : Z) (lb : block) : block :=
  {| index := Z.of_nat (List.length (chain s)) + 1;
     timestamp := now;
     data := current_data s;
     proof := p;
     previous_hash := hash (store s) (block_items lb) |}.

Definition after_seal (s : state) (blk : block) : state :=
  {| store := (store s ++ [[]])%list;
     chain := (chain s ++ [blk])%list;
     current_data := List.length (store s) |}.

Definition after_entry (s : state) (e : entry) : state :=
  {| store := alter (fun es => (es ++ [e])%list) (current_data s) (store s);
     chain := chain s;
     current_data := current_data s |}.

(** Bodies of the HTTP responses: a text, or the dict given to [jsonify]. *)
Inductive body : Type :=
  | Text (s : string)
  | Jsonify (d : dict).

(** The route [/mine]. *)
Definition mine (fuel : nat) (now : float) : M (body * Z) :=
  let* b := last_block in
  let last_proof := proof b in
  let* p := match proof_of_work fuel last_proof with
            | Some p => ret p
            | None => diverge
            end in
  let* blk := new_block now p None in
  let response :=
    [("message", VStr "Nowy Blok");
     ("index", VInt (index blk));
     ("transactions", VData (data blk));
     ("proof", VInt (proof blk));
     ("previous_hash", VStr (previous_hash blk))] in
  ret (Jsonify response, 200).

(** [k in values]: a key of a dict, an element of a list (equal to the
    string [k]), a part of a string; anything else cannot be searched. *)
Definition py_in (k : string) (values : atom) : M bool :=
  match values with
  | AObj d => ret (contains d k)
  | AList l => ret (existsb (fun x => match x with
                                      | AStr s => String.eqb k s
                                      | _ => false
                                      end) l)
  | AStr s => ret (is_substring k s)
  | ANull | ABool _ | AInt _ | AFloat _ => raise TypeError
  end.

(** [all(k in values for k in ks)]: it stops at the first [False]. *)
Fixpoint all_in (ks : list string) (values : atom) : M bool :=
  match ks with
  | [] => ret true
  | k :: ks' =>
      let* found := py_in k values in
      if found then all_in ks' values else ret false
  end.

(** [values[k]] with a string [k]: only a dict can be read that way. *)
Definition item (values : atom) (k : string) : M atom :=
  match values with
  | AObj d =>
      match get k d with
      | Some v => ret v
      | None => raise KeyError
      end
  | _ => raise TypeError
  end.

Definition required : list string := ["owner"; "stamp"; "year"].

(** The route [/transactions/new]; [values] is what [request.get_json()]
    returned for the body of the request. *)
Definition new_transaction (values : atom) : M (body * Z) :=
  let* complete := all_in required values in
  if negb complete
  then ret (Text "Brakujące wartości", 400)
  else
    let* owner := item values "owner" in
    let* stamp := item values "stamp" in
    let* year := item values "year" in
    let* idx := new_entry owner stamp year in
    ret (Jsonify [("message", VStr ("Transakcja zostanie dodana do Bloku " ++ str_of_int idx))],
         201).

(** The operations on the ledger and the states they lead to. An operation
    whose loop has not ended has not led anywhere. *)
Inductive op : Type :=
  | NewEntry (owner stamp year : atom)
  | Mine (fuel : nat) (now : float).

Definition run (o : op) (s : state) : option state :=
  match o with
  | NewEntry owner stamp year => Some (snd (new_entry owner stamp year s))
  | Mine fuel now =>
      match mine fuel now s with
      | (Diverge, _) => None
      | (_, s') => Some s'
      end
  end.

Fixpoint run_all (ops : list op) (s : state) : option state :=
  match ops with
  | [] => Some s
  | o :: ops' =>
      match run o s with
      | Some s' => run_all ops' s'
      | None => None
      end
  end.

Definition reachable (s : state) : Prop :=
  exists now ops, run_all ops (Blockchain now) = Some s.

End Ledger.

(** ** The wording of the specification, for comparison with the code *)

(** The decimal text of an integer, as bytes: a minus sign (45) if it is
    negative, then the digits of its absolute value, most significant
    first, each as the byte 48 plus the digit. The digits come from
    dividing by ten, least significant first; [0] has the one digit 0. *)
Fixpoint low_digits (fuel : nat) (n : N) : list N :=
  match fuel with
  | O => []
  | S fuel' => if (n =? 0)%N then [] else (n mod 10)%N :: low_digits fuel' (n / 10)%N
  end.

Definition decimal_digits (n : N) : list N :=
  if (n =? 0)%N then [0%N] else List.rev (low_digits (N.to_nat (N.size n)) n).

Definition decimal_bytes (z : Z) : list N :=
  ((if (z <? 0)%Z then [45%N] else []) ++ map (N.add 48) (decimal_digits (Z.abs_N z)))%list.

(** A digit as the library of decimal numbers has it. *)
Definition digit_of (d : N) : digits :=
  match d with
  | 0%N => d0 | 1%N => d1 | 2%N => d2 | 3%N => d3 | 4%N => d4
  | 5%N => d5 | 6%N => d6 | 7%N => d7 | 8%N => d8 | _ => d9
  end.

(** The text that a list of bytes below 128 encodes. *)
Definition text_of_bytes (bs : list N) : string := string_of_list_ascii (map ascii_of_N bs).

(** Lowercase hexadecimal: two digits per byte, the high half first; the
    digits 0 to 9 are the bytes 48 to 57, the digits a to f the bytes 97 to
    102. *)
Definition lower_hex_digit (n : N) : ascii :=
  if (n <? 10)%N then ascii_of_N (48 + n)
  else if (n <? 16)%N then ascii_of_N (87 + n)
  else "0"%char.

Definition byte_hex (b : N) : string :=
  String (lower_hex_digit (b / 16)) (String (lower_hex_digit (b mod 16)) EmptyString).

Definition lowercase_hex (bs : list N) : string :=
  fold_right (fun b text => byte_hex b ++ text) EmptyString bs.

(** SHA-256 from bytes to bytes. *)
Definition sha256_bytes (msg : list N) : list N :=
  map (fun w => Z.to_N (Uint63.to_Z w))
      (SHA256.digest (map (fun b => Uint63.of_Z (Z.of_N b)) msg)).

(** The lowercase hexadecimal SHA-256 digest of the byte string made of the
    decimal text of [last_proof] followed by the decimal text of [proof]. *)
Definition guess_digest (last_proof proof : Z) : string :=
  lowercase_hex (sha256_bytes (decimal_bytes last_proof ++ decimal_bytes proof)%list).




(** Each of the first four characters is the digit zero. *)
Definition four_leading_zeros (digest : string) : Prop :=
  forall i, (i < 4)%nat -> String.get i digest = Some "0"%char.

(** ** A run of the ledger: one entry, then one block mined *)

Definition t0 : float := 1700000000%float.
Definition t1 : float := 1700000060%float.

Definition alice : entry :=
  [("owner", AStr "Alice"); ("stamp", AStr "Penny Black"); ("year", AInt 1840)].

Definition genesis : block :=
  {| index := 1; timestamp := t0; data := 0%nat; proof := 100; previous_hash := "1" |}.

Definition second : block :=
  {| index := 2; timestamp := t1; data := 1%nat; proof := 35293;
     previous_hash := "a42ce40350038a86ab29a47f939fcb0a7d22f18eb954dbbf724e95083801f6f1" |}.

Definition fresh_state : state :=
  {| store := [[]; []]; chain := [genesis]; current_data := 1%nat |}.

Definition pending_state : state :=
  {| store := [[]; [alice]]; chain := [genesis]; current_data := 1%nat |}.

Definition mined_state : state :=
  {| store := [[]; [alice]; []]; chain := [genesis; second]; current_data := 2%nat |}.

Definition enough_fuel : nat := Z.to_nat 35294.

(** ** The route [/chain] *)

Inductive chain_field : Type :=
  | FChain (c : list block)
  | FLength (n : Z).

(** The dict given to [jsonify], and the status. *)
Definition full_chain : M (list (string * chain_field) * Z) :=
  let* c := gets chain in
  let* n := gets (fun s => List.length (chain s)) in
  ret ([("chain", FChain c); ("length", FLength (Z.of_nat n))], 200).

(** ** Reading a run of operations *)

(** The dict literal of [new_entry]. *)
Definition entry_of (owner stamp year : atom) : entry :=
  [("owner", owner); ("stamp", stamp); ("year", year)].

(** The entries handed to [new_entry] during a run, in order. *)
Definition submitted (ops : list op) : list entry :=
  flat_map (fun o => match o with
                     | NewEntry owner stamp year => [entry_of owner stamp year]
                     | Mine _ _ => []
                     end) ops.

(** The number of [mine] operations of a run. *)
Fixpoint mines (ops : list op) : nat :=
  match ops with
  | [] => 0%nat
  | NewEntry _ _ _ :: ops' => mines ops'
  | Mine _ _ :: ops' => S (mines ops')
  end.

(** The entries of the blocks of the chain, block after block. *)
Definition sealed_entries (s : state) : list entry :=
  concat (map (fun b => deref (store s) (data b)) (chain s)).

(** Calls of [new_entry] one after the other, with the numbers returned. *)
Fixpoint new_entries (es : list (atom * atom * atom)) : M (list Z) :=
  match es with
  | [] => ret []
  | (owner, stamp, year) :: es' =>
      let* i := new_entry owner stamp year in
      let* r := new_entries es' in
      ret (i :: r)
  end.

(** The state after a series of [new_entry]. *)
Definition after_entries (s : state) (es : list (atom * atom * atom)) : state :=
  fold_left (fun s' e => after_entry s' (entry_of e.1.1 e.1.2 e.2)) es s.

(** Where the lists live: the list of the block at position [i] is the
    [i]-th list made, the buffer is the last one. *)
Record layout (s : state) : Prop := {
  layout_store : List.length (store s) = S (List.length (chain s));
  layout_current : current_data s = List.length (chain s);
  layout_data : forall i b, chain s !! i = Some b -> data b = i;
}.

(** The proof of a block is the least one valid against its predecessor's. *)
Definition least_proofs (s : state) : Prop :=
  forall i p b, chain s !! i = Some p -> chain s !! S i = Some b ->
    0 <= proof b /\ forall q, 0 <= q < proof b -> valid_proof (proof p) q = false.

(** The first block is the one the constructor made at time [now]. *)
Definition genesis_first (now : float) (s : state) : Prop :=
  chain s !! 0%nat
  = Some {| index := 1; timestamp := now; data := 0%nat; proof := 100; previous_hash := "1" |}
  /\ deref (store s) 0%nat = [].

(** ** The run continued: a second block mined at once *)

Definition t2 : float := 1700000120%float.

Definition third : block :=
  {| index := 3; timestamp := t2; data := 2%nat; proof := 35089;
     previous_hash := "6e9d4fa62e7427f2259d8ba398f466301155a839ddd6beb7ee9dc0a63090c3cd" |}.

Definition twice_mined_state : state :=
  {| store := [[]; [alice]; []; []]; chain := [genesis; second; third];
     current_data := 3%nat |}.

Definition run_ops : list op :=
  [NewEntry (AStr "Alice") (AStr "Penny Black") (AInt 1840);
   Mine enough_fuel t1; Mine enough_fuel t2].

(** What the route [/mine] answered for the second and the third block. *)
Definition second_response : body * Z :=
  (Jsonify [("message", VStr "Nowy Blok"); ("index", VInt 2);
            ("transactions", VData 1%nat); ("proof", VInt 35293);
            ("previous_hash", VStr (previous_hash second))], 200).

Definition third_response : body * Z :=
  (Jsonify [("message", VStr "Nowy Blok"); ("index", VInt 3);
            ("transactions", VData 2%nat); ("proof", VInt 35089);
            ("previous_hash", VStr (previous_hash third))], 200).

(** Another run: a block mined at time [t2] with nothing pending. *)
Definition bare_second : block :=
  {| index := 2; timestamp := t2; data := 1%nat; proof := 35293;
     previous_hash := previous_hash second |}.

Definition bare_mined_state : state :=
  {| store := [[]; []; []]; chain := [genesis; bare_second]; current_data := 2%nat |}.

Definition bob : entry :=
  [("owner", AStr "Bob"); ("stamp", AStr "Inverted Jenny"); ("year", AInt 1918)].

(** A [Blockchain] object whose chain has been emptied from outside. *)
Definition emptied_state : state :=
  {| store := [[]]; chain := []; current_data := 0%nat |}.

(** * Properties *)

(** ** SHA-256 against the test vectors of FIPS 180-4 *)

Example sha256_constants :
  nth 0 SHA256.K 0%uint63 = 0x428a2f98%uint63
  /\ nth 63 SHA256.K 0%uint63 = 0xc67178f2%uint63
  /\ List.length SHA256.K = 64%nat
  /\ nth 0 SHA256.H0 0%uint63 = 0x6a09e667%uint63
  /\ nth 7 SHA256.H0 0%uint63 = 0x5be0cd19%uint63
  /\ List.length SHA256.H0 = 8%nat.
Proof. repeat split. Qed.

Example sha256_empty :
  sha256_hexdigest (encode "")
  = "e3b0c44298fc1c149afbf4c8996fb92427ae41e4649b934ca495991b7852b855".
Proof. vm_compute. reflexivity. Qed.

Example sha256_abc :
  sha256_hexdigest (encode "abc")
  = "ba7816bf8f01cfea414140de5dae2223b00361a396177a9cb410ff61f20015ad".
Proof. vm_compute. reflexivity. Qed.

Example sha256_two_blocks :
  sha256_hexdigest (encode "abcdbcdecdefdefgefghfghighijhijkijkljklmklmnlmnomnopnopq")
  = "248d6a61d20638b8e5c026930c3e6039a33ce45964ff2167f6ecedd419db06c1".
Proof. vm_compute. reflexivity. Qed.

(** ** The text of a float against the interpreter

    The values are those [json.dumps] prints for the floats named: whole
    and fractional clock readings, 0.1, 0.1 + 0.2, the ends of the range
    written with an exponent, 2^53 where the lower neighbour is nearer, and
    the special values. *)

Example float_repr_values :
  float_repr_cpython 1700000000%float = "1700000000.0"
  /\ float_repr_cpython 1700000000.5%float = "1700000000.5"
  /\ float_repr_cpython 123456789.125%float = "123456789.125"
  /\ float_repr_cpython 0x1.999999999999ap-4%float = "0.1"
  /\ float_repr_cpython 0x1.3333333333334p-2%float = "0.30000000000000004"
  /\ float_repr_cpython 0x1.a36e2eb1c432dp-14%float = "0.0001"
  /\ float_repr_cpython 0x1.4f8b588e368f1p-17%float = "1e-05"
  /\ float_repr_cpython 0x1p-20%float = "9.5367431640625e-07"
  /\ float_repr_cpython 1000000000000000%float = "1000000000000000.0"
  /\ float_repr_cpython 9007199254740992%float = "9007199254740992.0"
  /\ float_repr_cpython 10000000000000000%float = "1e+16"
  /\ float_repr_cpython 10000000000000000000000%float = "1e+22"
  /\ float_repr_cpython (-2.5)%float = "-2.5"
  /\ float_repr_cpython (-0)%float = "-0.0"
  /\ float_repr_cpython infinity = "Infinity"
  /\ float_repr_cpython neg_infinity = "-Infinity"
  /\ float_repr_cpython nan = "NaN".
Proof. vm_compute. repeat split. Qed.

(** ** The shape of a digest: 64 lowercase hexadecimal digits *)

Lemma round_length s k w : List.length s = 8%nat -> List.length (SHA256.round s k w) = 8%nat.
Proof.
  intros Hs. do 9 (destruct s as [|? s]; simpl in Hs; try discriminate Hs). reflexivity.
Qed.

Lemma rounds_length ks blk w s :
  List.length s = 8%nat -> List.length (SHA256.rounds ks blk w s) = 8%nat.
Proof.
  revert blk w s. induction ks as [|k ks IH]; intros blk w s Hs; simpl; [done|].
  destruct blk; apply IH, round_length, Hs.
Qed.

Lemma compress_length h blk :
  List.length h = 8%nat -> List.length (SHA256.compress h blk) = 8%nat.
Proof.
  intros Hh. unfold SHA256.compress.
  rewrite length_map, length_combine, rounds_length, Hh; done.
Qed.

Lemma blocks_length n ws h :
  List.length h = 8%nat -> List.length (SHA256.blocks n ws h) = 8%nat.
Proof.
  revert ws h. induction n as [|n IH]; intros ws h Hh; simpl; [done|].
  destruct ws; [done|]. apply IH, compress_length, Hh.
Qed.

Lemma digest_length msg : List.length (SHA256.digest msg) = 32%nat.
Proof.
  unfold SHA256.digest. cbv zeta.
  pose proof (blocks_length (List.length (SHA256.words (SHA256.pad msg)))
                (SHA256.words (SHA256.pad msg)) SHA256.H0 eq_refl) as Hb.
  revert Hb. generalize (SHA256.blocks (List.length (SHA256.words (SHA256.pad msg)))
                           (SHA256.words (SHA256.pad msg)) SHA256.H0).
  intros l Hb.
  do 9 (destruct l as [|? l]; simpl in Hb; try discriminate Hb). reflexivity.
Qed.

Lemma hexdigit_hex n : In (hexdigit n) hex_chars.
Proof.
  unfold hexdigit. destruct (nth_in_or_default (N.to_nat n) hex_chars "0"%char) as [Hin| ->].
  - exact Hin.
  - simpl. auto.
Qed.

Lemma hex_shape bs :
  String.length (hex bs) = (2 * List.length bs)%nat
  /\ Forall (fun c => In c hex_chars) (list_ascii_of_string (hex bs)).
Proof.
  induction bs as [|b bs [IHl IHc]]; simpl; [by split|].
  split; [lia|]. constructor; [apply hexdigit_hex|]. constructor; [apply hexdigit_hex|done].
Qed.

Lemma sha256_hexdigest_shape bs :
  String.length (sha256_hexdigest bs) = 64%nat
  /\ Forall (fun c => In c hex_chars) (list_ascii_of_string (sha256_hexdigest bs)).
Proof.
  unfold sha256_hexdigest. destruct (hex_shape (SHA256.digest bs)) as [Hl Hc].
  by rewrite Hl, digest_length.
Qed.

(** ** The decimal text of an integer *)

Section Decimal.
Local Open Scope N_scope.

(** A property of every number below a bound, from its instances. *)
Lemma below_Forall (P : N -> Prop) (bound : nat) :
  List.Forall P (map N.of_nat (seq 0 bound)) -> forall n, n < N.of_nat bound -> P n.
Proof.
  intros Hall n Hn. rewrite List.Forall_forall in Hall. apply Hall.
  apply in_map_iff. exists (N.to_nat n). split; [apply N2Nat.id|].
  apply in_seq. lia.
Qed.

Lemma of_lu_digit r ds :
  r < 10 -> Unsigned.of_lu (of_list (digit_of r :: ds)) = r + 10 * Unsigned.of_lu (of_list ds).
Proof.
  intros Hr. revert ds. pattern r. apply (below_Forall _ 10%nat); [|exact Hr].
  repeat constructor; intros ds; cbn [digit_of of_list Unsigned.of_lu N.of_nat Pos.of_succ_nat Pos.succ];
    lia.
Qed.

Lemma string_of_digit r ds :
  r < 10 ->
  NilEmpty.string_of_uint (of_list (digit_of r :: ds))
  = String (ascii_of_N (48 + r)) (NilEmpty.string_of_uint (of_list ds)).
Proof.
  intros Hr. revert ds. pattern r. apply (below_Forall _ 10%nat); [|exact Hr].
  repeat constructor.
Qed.

Lemma div_ten_bound fuel n : n < 2 ^ N.of_nat (S fuel) -> n / 10 < 2 ^ N.of_nat fuel.
Proof.
  intros Hn. rewrite Nat2N.inj_succ, N.pow_succ_r' in Hn.
  apply N.Div0.div_lt_upper_bound. lia.
Qed.

(** The digits of [n], read with the least significant first, give [n]. *)
Lemma of_lu_low_digits fuel n :
  n < 2 ^ N.of_nat fuel ->
  Unsigned.of_lu (of_list (map digit_of (low_digits fuel n))) = n.
Proof.
  revert n. induction fuel as [|fuel IH]; intros n Hn.
  - simpl in *. lia.
  - cbn [low_digits]. destruct (N.eqb_spec n 0) as [->|Hne]; [reflexivity|].
    specialize (IH _ (div_ten_bound fuel n Hn)).
    pose proof (N.div_mod n 10 ltac:(lia)) as Hdm.
    pose proof (N.mod_lt n 10 ltac:(lia)) as Hr.
    cbn [map]. rewrite of_lu_digit, IH by exact Hr. lia.
Qed.

Lemma low_digits_below fuel n : Forall (fun d => d < 10) (low_digits fuel n).
Proof.
  revert n. induction fuel as [|fuel IH]; intros n; cbn [low_digits]; [constructor|].
  destruct (n =? 0); constructor; [apply N.mod_lt; lia|apply IH].
Qed.

(** The most significant digit is not zero. *)
Lemma low_digits_last fuel n :
  n <> 0 -> n < 2 ^ N.of_nat fuel ->
  exists l x, low_digits fuel n = (l ++ [x])%list /\ 1 <= x <= 9.
Proof.
  revert n. induction fuel as [|fuel IH]; intros n Hne Hn.
  - simpl in *. lia.
  - cbn [low_digits]. destruct (N.eqb_spec n 0) as [|_]; [contradiction|].
    destruct (N.eq_dec (n / 10) 0) as [Hz|Hnz].
    + exists [], (n mod 10). split.
      * rewrite Hz. destruct fuel; reflexivity.
      * pose proof (N.div_mod n 10 ltac:(lia)). pose proof (N.mod_lt n 10 ltac:(lia)). lia.
    + destruct (IH _ Hnz (div_ten_bound fuel n Hn)) as (l & x & -> & Hx).
      exists (n mod 10 :: l), x. split; [reflexivity|exact Hx].
Qed.

Lemma rev_of_list l : Decimal.rev (of_list l) = of_list (List.rev l).
Proof. apply to_list_inj. rewrite rev_spec, !to_list_of_list. reflexivity. Qed.

Lemma digit_of_nonzero x : 1 <= x <= 9 -> digit_of x <> d0.
Proof.
  intros [Hlow Hhigh]. revert Hlow. pattern x. apply (below_Forall _ 10%nat); [|lia].
  repeat constructor; cbn [N.of_nat Pos.of_succ_nat Pos.succ]; intros Hlow; [lia|discriminate..].
Qed.

(** The conversion of the library, by doubling, gives the same digits as the
    division by ten. *)
Lemma to_uint_decimal_digits p :
  Pos.to_uint p = of_list (map digit_of (decimal_digits (Npos p))).
Proof.
  unfold decimal_digits. cbn [N.eqb].
  set (fuel := N.to_nat (N.size (Npos p))).
  assert (Hfuel : Npos p < 2 ^ N.of_nat fuel).
  { unfold fuel. rewrite N2Nat.id. apply N.size_gt. }
  set (low := low_digits fuel (Npos p)).
  set (d := of_list (map digit_of (List.rev low))).
  assert (Hval : Pos.of_uint d = Npos p).
  { unfold d. rewrite map_rev, <- rev_of_list, Unsigned.of_lu_rev.
    apply of_lu_low_digits, Hfuel. }
  assert (Hnorm : Decimal.unorm d = d).
  { apply to_list_inj. rewrite unorm_spec. unfold d. rewrite to_list_of_list.
    destruct (low_digits_last fuel (Npos p) ltac:(discriminate) Hfuel) as (l & x & Hlow & Hx).
    fold low in Hlow. rewrite Hlow, rev_app_distr. cbn [List.rev List.app map].
    unfold lunorm. rewrite lnzhead_head_nd0 by (apply digit_of_nonzero, Hx).
    reflexivity. }
  pose proof (Unsigned.to_of d) as Hto. rewrite Hval, Hnorm in Hto. exact Hto.
Qed.

Lemma string_of_digits ds :
  Forall (fun d => d < 10) ds ->
  NilEmpty.string_of_uint (of_list (map digit_of ds)) = text_of_bytes (map (N.add 48) ds).
Proof.
  induction 1 as [|r ds Hr _ IH]; [reflexivity|].
  unfold text_of_bytes in *. cbn [map string_of_list_ascii].
  rewrite string_of_digit, IH by exact Hr. reflexivity.
Qed.

Lemma decimal_digits_below n : Forall (fun d => d < 10) (decimal_digits n).
Proof.
  unfold decimal_digits. destruct (n =? 0).
  - repeat constructor.
  - apply Forall_rev, low_digits_below.
Qed.

Lemma string_of_to_uint p :
  NilZero.string_of_uint (Pos.to_uint p)
  = text_of_bytes (map (N.add 48) (decimal_digits (Npos p))).
Proof.
  pose proof (Unsigned.to_uint_nonnil p) as Hnil.
  unfold NilZero.string_of_uint.
  transitivity (NilEmpty.string_of_uint (Pos.to_uint p)).
  - destruct (Pos.to_uint p); [contradiction|reflexivity..].
  - rewrite to_uint_decimal_digits. apply string_of_digits, decimal_digits_below.
Qed.

(** [str(n)] is the decimal text of [n]. *)
Lemma str_of_int_decimal z : str_of_int z = text_of_bytes (decimal_bytes z).
Proof.
  unfold str_of_int, decimal_bytes.
  destruct z as [|p|p]; cbn [Z.to_int Z.ltb Z.compare Z.abs_N].
  - reflexivity.
  - cbn [NilZero.string_of_int List.app]. apply string_of_to_uint.
  - cbn [NilZero.string_of_int List.app map]. rewrite string_of_to_uint. reflexivity.
Qed.

Lemma decimal_bytes_below z : Forall (fun b => b < 256) (decimal_bytes z).
Proof.
  unfold decimal_bytes. apply List.Forall_app. split.
  - destruct (z <? 0)%Z; repeat constructor.
  - apply List.Forall_map. eapply List.Forall_impl; [|apply decimal_digits_below].
    cbn beta. intros d Hd. lia.
Qed.

(** ** Bytes and hexadecimal digits *)

Lemma encode_bytes s :
  encode s = map (fun c => Uint63.of_Z (Z.of_N (N_of_ascii c))) (list_ascii_of_string s).
Proof.
  unfold encode. apply map_ext.
  intros [[] [] [] [] [] [] [] []]; vm_compute; reflexivity.
Qed.

Lemma encode_text_of_bytes bs :
  Forall (fun b => b < 256) bs ->
  encode (text_of_bytes bs) = map (fun b => Uint63.of_Z (Z.of_N b)) bs.
Proof.
  intros Hbs. rewrite encode_bytes. unfold text_of_bytes.
  rewrite list_ascii_of_string_of_list_ascii, map_map.
  induction Hbs as [|b bs Hb _ IH]; [reflexivity|].
  cbn [map]. rewrite IH, N_ascii_embedding by exact Hb. reflexivity.
Qed.

Lemma text_of_bytes_app bs1 bs2 :
  text_of_bytes (bs1 ++ bs2) = (text_of_bytes bs1 ++ text_of_bytes bs2)%string.
Proof.
  unfold text_of_bytes. induction bs1 as [|b bs1 IH]; [reflexivity|].
  cbn [List.app map string_of_list_ascii String.append]. rewrite IH. reflexivity.
Qed.

Lemma hexdigit_lower n : hexdigit n = lower_hex_digit n.
Proof.
  unfold hexdigit, lower_hex_digit.
  destruct (N.ltb_spec n 16) as [Hlt|Hge].
  - pattern n. apply (below_Forall _ 16%nat); [|exact Hlt]. repeat constructor.
  - destruct (N.ltb_spec n 10) as [Hlt|_]; [lia|].
    apply nth_overflow. change (List.length hex_chars) with 16%nat. lia.
Qed.

Lemma hex_lowercase bs :
  hex bs = lowercase_hex (map (fun w => Z.to_N (Uint63.to_Z w)) bs).
Proof.
  induction bs as [|b bs IH]; [reflexivity|].
  cbn [hex map lowercase_hex fold_right]. fold (lowercase_hex (map (fun w => Z.to_N (Uint63.to_Z w)) bs)).
  rewrite <- IH, !hexdigit_lower. unfold byte_hex. cbn [String.append].
  rewrite N.shiftr_div_pow2. change (N.land (Z.to_N (Uint63.to_Z b)) 15)
    with (N.land (Z.to_N (Uint63.to_Z b)) (N.ones 4)).
  rewrite N.land_ones. reflexivity.
Qed.

(** The digest that [valid_proof] looks at is the one the specification
    names. *)
Lemma guess_digest_code last_proof proof :
  sha256_hexdigest (encode (str_of_int last_proof ++ str_of_int proof)%string)
  = guess_digest last_proof proof.
Proof.
  unfold sha256_hexdigest, guess_digest, sha256_bytes.
  rewrite !str_of_int_decimal, <- text_of_bytes_app, encode_text_of_bytes.
  - apply hex_lowercase.
  - apply List.Forall_app. split; apply decimal_bytes_below.
Qed.
End Decimal.

(** ** Dicts and the order of their keys *)

Section Items.
Context {V : Type}.
Implicit Types (d : list (string * V)) (x y : string * V) (k : string).
Local Abbreviation key_le := (@key_le V).

Lemma get_elem_of k v d : get k d = Some v -> (k, v) ∈ d.
Proof.
  induction d as [|[k' v'] d IH]; simpl; [done|].
  destruct (String.eqb_spec k k') as [->|Hne].
  - intros [= ->]. left.
  - intros Hg. right. auto.
Qed.

Lemma same_key_same_item d x y :
  NoDup (keys d) -> x ∈ d -> y ∈ d -> fst x = fst y -> x = y.
Proof.
  unfold keys. induction d as [|z d IH]; simpl; intros Hnd Hx Hy Hk.
  - by apply elem_of_nil in Hx.
  - apply NoDup_cons in Hnd as [Hz Hnd].
    apply elem_of_cons in Hx as [->|Hx]; apply elem_of_cons in Hy as [->|Hy]; auto.
    + exfalso. apply Hz. rewrite Hk. apply list_elem_of_In, in_map, list_elem_of_In, Hy.
    + exfalso. apply Hz. rewrite <- Hk. apply list_elem_of_In, in_map, list_elem_of_In, Hx.
Qed.

Lemma elem_of_get k v d : NoDup (keys d) -> (k, v) ∈ d -> get k d = Some v.
Proof.
  intros Hnd Hin. destruct (get k d) as [v'|] eqn:Hg.
  - apply get_elem_of in Hg.
    by assert ((k, v') = (k, v)) as [= ->] by (eapply same_key_same_item; eauto).
  - exfalso. clear Hnd. induction d as [|[k' w] d IH]; simpl in *.
    + by apply elem_of_nil in Hin.
    + destruct (String.eqb_spec k k') as [->|Hne]; [done|].
      apply elem_of_cons in Hin as [[= -> ->]|Hin]; [done|auto].
Qed.

Lemma NoDup_keys_items d : NoDup (keys d) -> NoDup d.
Proof. apply NoDup_fmap_1. Qed.

(** Two dicts with the same lookups have the same items. *)
Lemma same_get_Permutation d1 d2 :
  NoDup (keys d1) -> NoDup (keys d2) ->
  (forall k, get k d1 = get k d2) -> d1 ≡ₚ d2.
Proof.
  intros H1 H2 Hget. apply NoDup_Permutation; auto using NoDup_keys_items.
  intros [k v]. split; intros Hin.
  - apply get_elem_of. rewrite <- Hget. by apply elem_of_get.
  - apply get_elem_of. rewrite Hget. by apply elem_of_get.
Qed.

Lemma insert_item_Permutation x d : Json.insert_item x d ≡ₚ x :: d.
Proof.
  induction d as [|y d IH]; simpl; [done|].
  destruct (String.leb (fst x) (fst y)); [done|].
  rewrite IH. apply Permutation_swap.
Qed.

Lemma sorted_Permutation d : Json.sorted d ≡ₚ d.
Proof.
  induction d as [|x d IH]; simpl; [done|].
  by rewrite insert_item_Permutation, IH.
Qed.

Lemma key_le_flip x y : String.leb (fst x) (fst y) = false -> key_le y x.
Proof.
  intros Hf. unfold key_le, String.le.
  destruct (String.leb_total (fst x) (fst y)) as [Ht|Ht]; [congruence|].
  by rewrite Ht.
Qed.

Lemma insert_item_Sorted x d :
  Sorted key_le d -> Sorted key_le (Json.insert_item x d).
Proof.
  induction 1 as [|y d Hs IH Hhd]; simpl.
  - repeat constructor.
  - destruct (String.leb (fst x) (fst y)) eqn:Hle.
    + constructor; [by constructor|]. constructor. unfold key_le, String.le. by rewrite Hle.
    + constructor; [done|].
      destruct Hhd as [|z d Hyz]; simpl.
      * constructor. by apply key_le_flip.
      * destruct (String.leb (fst x) (fst z)); constructor; [by apply key_le_flip|done].
Qed.

Lemma sorted_Sorted d : Sorted key_le (Json.sorted d).
Proof. induction d; simpl; [constructor|by apply insert_item_Sorted]. Qed.

#[local] Instance key_le_trans : Transitive key_le.
Proof. intros x y z. unfold key_le. apply transitivity. Qed.

(** [sorted] does not depend on the order of insertion. *)
Lemma sorted_order_irrelevant d1 d2 :
  NoDup (keys d1) -> d1 ≡ₚ d2 -> Json.sorted d1 = Json.sorted d2.
Proof.
  intros Hnd Hp.
  apply (StronglySorted_unique_strong key_le).
  - intros x y Hx Hy Hxy Hyx.
    apply (same_key_same_item d1); auto.
    + by rewrite <- (sorted_Permutation d1).
    + by rewrite Hp, <- (sorted_Permutation d2).
    + by apply (anti_symm String.le).
  - apply Sorted_StronglySorted; [apply _|apply sorted_Sorted].
  - apply Sorted_StronglySorted; [apply _|apply sorted_Sorted].
  - by rewrite !sorted_Permutation.
Qed.
End Items.

(** Sorting looks at the keys only. *)
Lemma sorted_map_values {V W : Type} (f : V -> W) (d : list (string * V)) :
  Json.sorted (map (fun kv => (fst kv, f (snd kv))) d)
  = map (fun kv => (fst kv, f (snd kv))) (Json.sorted d).
Proof.
  induction d as [|x d IH]; simpl; [done|].
  rewrite IH. generalize (Json.sorted d). intros l.
  induction l as [|y l IHl]; simpl; [done|].
  destruct (String.leb (fst x) (fst y)); simpl; [done|by rewrite IHl].
Qed.

Lemma get_resolve h d k : get k (resolve h d) = field h d k.
Proof.
  unfold field, resolve. induction d as [|[k' v] d IH]; simpl; [done|].
  by destruct (String.eqb k k').
Qed.

Lemma keys_resolve h d : keys (resolve h d) = keys d.
Proof. unfold keys, resolve. rewrite map_map. done. Qed.

(** ** The proof-of-work search *)

Lemma proof_of_work_from_sound fuel last_proof q p :
  proof_of_work_from fuel last_proof q = Some p ->
  valid_proof last_proof p = true /\ q <= p
  /\ forall r, q <= r < p -> valid_proof last_proof r = false.
Proof.
  revert q. induction fuel as [|fuel IH]; simpl; intros q Hp; [done|].
  destruct (valid_proof last_proof q) eqn:Hq; simpl in Hp.
  - injection Hp as <-. repeat split; [done|lia|lia].
  - apply IH in Hp as (Hv & Hle & Hmin). repeat split; [done|lia|].
    intros r Hr. destruct (decide (r = q)) as [->|Hne]; [done|]. apply Hmin. lia.
Qed.

Lemma proof_of_work_from_complete fuel last_proof q p :
  valid_proof last_proof p = true -> q <= p -> (Z.to_nat (p - q) < fuel)%nat ->
  exists p', proof_of_work_from fuel last_proof q = Some p'.
Proof.
  revert q. induction fuel as [|fuel IH]; simpl; intros q Hv Hle Hfuel; [lia|].
  destruct (valid_proof last_proof q) eqn:Hq; simpl; [by eexists|].
  apply IH; [done| |].
  - destruct (decide (p = q)) as [->|Hne]; [congruence|lia].
  - destruct (decide (p = q)) as [->|Hne]; [congruence|lia].
Qed.

Lemma proof_of_work_from_more_fuel fuel fuel' last_proof q p :
  proof_of_work_from fuel last_proof q = Some p -> (fuel <= fuel')%nat ->
  proof_of_work_from fuel' last_proof q = Some p.
Proof.
  revert fuel' q. induction fuel as [|fuel IH]; simpl; intros fuel' q Hp Hle; [done|].
  destruct fuel' as [|fuel']; [lia|]. simpl.
  destruct (valid_proof last_proof q); simpl in *; [done|].
  apply IH; [done|lia].
Qed.

(** ** The hash of a dict is a function of its items *)

Section Hash.
Context `{FloatRepr}.

Lemma dumps_resolve h d : dumps h d = Json.dumps_dict dumps_content (resolve h d).
Proof.
  unfold dumps, Json.dumps_dict, resolve.
  by rewrite sorted_map_values, map_map.
Qed.

Lemma hash_resolve h1 d1 h2 d2 :
  Json.sorted (resolve h1 d1) = Json.sorted (resolve h2 d2) -> hash h1 d1 = hash h2 d2.
Proof.
  intros Heq. unfold hash. rewrite !dumps_resolve. unfold Json.dumps_dict. by rewrite Heq.
Qed.

(** The hash of a block reads the store at the block's list only. *)
Lemma hash_block_frame h1 h2 b :
  deref h1 (data b) = deref h2 (data b) ->
  hash h1 (block_items b) = hash h2 (block_items b).
Proof.
  intros Heq. apply hash_resolve. unfold resolve. simpl. by rewrite Heq.
Qed.

Lemma hash_block_alter h l f b :
  data b <> l -> hash (alter f l h) (block_items b) = hash h (block_items b).
Proof.
  intros Hne. apply hash_block_frame. unfold deref.
  by rewrite list_lookup_total_alter_ne.
Qed.

Lemma hash_block_alloc h x b :
  (data b < List.length h)%nat -> hash (h ++ [x])%list (block_items b) = hash h (block_items b).
Proof.
  intros Hlt. apply hash_block_frame. unfold deref.
  by rewrite lookup_total_app_l.
Qed.
End Hash.

(** ** What the operations do to a state *)

Section Operations.
Context `{FloatRepr}.
Implicit Types (s : state) (b : block).

Lemma new_block_default s now p lb :
  last (chain s) = Some lb ->
  new_block now p None s
  = (Ret (sealed s now p lb), after_seal s (sealed s now p lb)).
Proof.
  intros Hlast. unfold new_block, last_block, bind, gets, alloc; simpl.
  by rewrite Hlast.
Qed.

Lemma new_block_empty_chain s now p :
  chain s = [] -> new_block now p None s = (Raise IndexError, s).
Proof.
  intros Hnil. unfold new_block, last_block, bind, gets; simpl.
  by rewrite Hnil.
Qed.

Lemma new_entry_run s owner stamp year :
  new_entry owner stamp year s
  = (match last (chain s) with
     | Some lb => Ret (index lb + 1)
     | None => Raise IndexError
     end,
     after_entry s [("owner", owner); ("stamp", stamp); ("year", year)]).
Proof.
  unfold new_entry, current_data_append, last_block, bind, gets, modify; simpl.
  by destruct (last (chain s)).
Qed.

Lemma mine_run s fuel now lb :
  last (chain s) = Some lb ->
  mine fuel now s
  = match proof_of_work fuel (proof lb) with
    | Some p =>
        let blk := sealed s now p lb in
        (Ret (Jsonify [("message", VStr "Nowy Blok");
                    ("index", VInt (index blk));
                    ("transactions", VData (data blk));
                    ("proof", VInt (proof blk));
                    ("previous_hash", VStr (previous_hash blk))], 200),
         after_seal s blk)
    | None => (Diverge, s)
    end.
Proof.
  intros Hlast. cbv [mine last_block bind gets ret raise diverge].
  cbn [fst snd]. rewrite Hlast.
  destruct (proof_of_work fuel (proof lb)) as [p|]; [|done].
  by rewrite (new_block_default s now p lb Hlast).
Qed.

(** ** The invariant of the ledger *)

Record inv (s : state) : Prop := {
  inv_nonempty : chain s <> [];
  inv_current : (current_data s < List.length (store s))%nat;
  inv_sealed : forall b, b ∈ chain s ->
    (data b < List.length (store s))%nat /\ data b <> current_data s;
  inv_index : forall i b, chain s !! i = Some b -> index b = Z.of_nat i + 1;
  inv_link : forall i p b, chain s !! i = Some p -> chain s !! S i = Some b ->
    previous_hash b = hash (store s) (block_items p);
  inv_proof : forall i p b, chain s !! i = Some p -> chain s !! S i = Some b ->
    valid_proof (proof p) (proof b) = true;
}.

Lemma inv_last s : inv s -> exists lb, last (chain s) = Some lb.
Proof.
  intros Hi. destruct (last (chain s)) as [lb|] eqn:Hl; [by eexists|].
  apply last_None in Hl. by destruct (inv_nonempty s Hi).
Qed.

Lemma inv_Blockchain now : inv (Blockchain now).
Proof.
  split; simpl.
  - done.
  - lia.
  - intros b ->%list_elem_of_singleton. simpl. split; [lia|done].
  - intros [|[|i]] b; simpl; [|done..]. by intros [= <-].
  - intros [|i] p b; simpl; done.
  - intros [|i] p b; simpl; done.
Qed.

Lemma inv_after_entry s e : inv s -> inv (after_entry s e).
Proof.
  intros [Hne Hcur Hsealed Hidx Hlink Hproof]. split; simpl; auto.
  - by rewrite length_alter.
  - intros b Hb. rewrite length_alter. auto.
  - intros i p b Hp Hb. rewrite hash_block_alter; [eauto|].
    apply Hsealed. by eapply list_elem_of_lookup_2.
Qed.

Lemma inv_after_seal s now p lb :
  inv s -> last (chain s) = Some lb -> valid_proof (proof lb) p = true ->
  inv (after_seal s (sealed s now p lb)).
Proof.
  intros [Hne Hcur Hsealed Hidx Hlink Hproof] Hlast Hvalid.
  assert (Hlb : chain s !! pred (List.length (chain s)) = Some lb)
    by (by rewrite <- last_lookup).
  assert (Hlen : (0 < List.length (chain s))%nat)
    by (destruct (chain s); simpl; [done|lia]).
  split; simpl.
  - by destruct (chain s).
  - rewrite length_app. simpl. lia.
  - intros b [Hb| ->%list_elem_of_singleton]%elem_of_app; rewrite length_app; simpl.
    + destruct (Hsealed b Hb). split; lia.
    + split; lia.
  - intros i b [[Hi Hb]|[-> <-]]%lookup_snoc_Some; simpl; [auto|lia].
  - intros i q b [[Hi Hq]|[-> <-]]%lookup_snoc_Some Hb.
    + assert (Hq' : q ∈ chain s) by (by eapply list_elem_of_lookup_2).
      rewrite hash_block_alloc by (by apply Hsealed).
      apply lookup_snoc_Some in Hb as [[Hi' Hb]|[Hi' <-]]; [eauto|].
      simpl. replace i with (pred (List.length (chain s))) in Hq by lia.
      congruence.
    + apply lookup_snoc_Some in Hb as [[Hi' Hb]|[Hi' _]]; lia.
  - intros i q b [[Hi Hq]|[-> <-]]%lookup_snoc_Some Hb.
    + apply lookup_snoc_Some in Hb as [[Hi' Hb]|[Hi' <-]]; [eauto|].
      simpl. replace i with (pred (List.length (chain s))) in Hq by lia.
      congruence.
    + apply lookup_snoc_Some in Hb as [[Hi' Hb]|[Hi' _]]; lia.
Qed.

Lemma proof_of_work_valid fuel last_proof p :
  proof_of_work fuel last_proof = Some p -> valid_proof last_proof p = true.
Proof. intros Hp. by apply proof_of_work_from_sound in Hp as (? & _). Qed.

Lemma inv_run o s s' : inv s -> run o s = Some s' -> inv s'.
Proof.
  intros Hi. destruct (inv_last s Hi) as [lb Hlast].
  destruct o as [owner stamp year|fuel now]; simpl.
  - rewrite new_entry_run. simpl. intros [= <-]. by apply inv_after_entry.
  - rewrite (mine_run s fuel now lb Hlast).
    destruct (proof_of_work fuel (proof lb)) as [p|] eqn:Hp; simpl; [|done].
    intros [= <-]. apply inv_after_seal; eauto using proof_of_work_valid.
Qed.

(** An operation keeps the blocks of the chain, the entries of their lists
    and so their hashes. *)
Lemma run_keeps_blocks o s s' :
  inv s -> run o s = Some s' ->
  (exists added, chain s' = (chain s ++ added)%list)
  /\ forall b, b ∈ chain s ->
       deref (store s') (data b) = deref (store s) (data b)
       /\ hash (store s') (block_items b) = hash (store s) (block_items b).
Proof.
  intros Hi. destruct (inv_last s Hi) as [lb Hlast].
  destruct o as [owner stamp year|fuel now]; simpl.
  - rewrite new_entry_run. simpl. intros [= <-]. split.
    + exists []. simpl. by rewrite app_nil_r.
    + intros b Hb. destruct (inv_sealed s Hi b Hb) as [_ Hne].
      assert (Hd : deref (store (after_entry s [("owner", owner); ("stamp", stamp);
                                                ("year", year)])) (data b)
                   = deref (store s) (data b)).
      { unfold deref. simpl. by rewrite list_lookup_total_alter_ne. }
      split; [done|]. by apply hash_block_frame.
  - rewrite (mine_run s fuel now lb Hlast).
    destruct (proof_of_work fuel (proof lb)) as [p|]; simpl; [|done].
    intros [= <-]. split.
    + by eexists.
    + intros b Hb. destruct (inv_sealed s Hi b Hb) as [Hlt _].
      assert (Hd : deref (store s ++ [[]])%list (data b) = deref (store s) (data b)).
      { unfold deref. by rewrite lookup_total_app_l. }
      split; [done|]. by apply hash_block_frame.
Qed.

Lemma run_mine s fuel now lb p :
  last (chain s) = Some lb -> proof_of_work fuel (proof lb) = Some p ->
  run (Mine fuel now) s = Some (after_seal s (sealed s now p lb)).
Proof. intros Hl Hp. unfold run. by rewrite (mine_run s fuel now lb Hl), Hp. Qed.

Lemma inv_run_all ops s s' : inv s -> run_all ops s = Some s' -> inv s'.
Proof.
  revert s. induction ops as [|o ops IH]; simpl; intros s Hi.
  - by intros [= <-].
  - destruct (run o s) as [s1|] eqn:Hrun; [|done].
    apply IH. by eapply inv_run.
Qed.

Lemma reachable_inv s : reachable s -> inv s.
Proof. intros (now & ops & Hrun). eapply inv_run_all; [apply inv_Blockchain|done]. Qed.

Lemma reachable_run o s s' : reachable s -> run o s = Some s' -> reachable s'.
Proof.
  intros (now & ops & Hrun) Ho. exists now, (ops ++ [o])%list.
  revert Hrun. generalize (Blockchain now). clear now.
  induction ops as [|o' ops IH]; simpl; intros s0.
  - intros [= ->]. by rewrite Ho.
  - destruct (run o' s0); [auto|done].
Qed.
(** The test of the route on a body that is a dict. *)
Lemma all_in_object ks d s :
  all_in ks (AObj d) s = (Ret (forallb (contains d) ks), s).
Proof.
  induction ks as [|k ks IH]; simpl; [done|].
  unfold bind, py_in, ret. destruct (contains d k); [exact IH|done].
Qed.

(** The route [/transactions/new] on a dict, in one equation. *)
Lemma new_transaction_run (d : entry) s :
  new_transaction (AObj d) s
  = match get "owner" d, get "stamp" d, get "year" d with
    | Some owner, Some stamp, Some year =>
        match new_entry owner stamp year s with
        | (Ret idx, s') =>
            (Ret (Jsonify [("message",
                            VStr ("Transakcja zostanie dodana do Bloku " ++ str_of_int idx))],
                  201), s')
        | (Raise e, s') => (Raise e, s')
        | (Diverge, s') => (Diverge, s')
        end
    | _, _, _ => (Ret (Text "Brakujące wartości", 400), s)
    end.
Proof.
  unfold new_transaction. unfold bind at 1. rewrite all_in_object.
  unfold required, contains. cbn [forallb].
  destruct (get "owner" d) as [owner|] eqn:Ho;
    destruct (get "stamp" d) as [stamp|] eqn:Hs;
    destruct (get "year" d) as [year|] eqn:Hy; try done.
  rewrite !bool_decide_eq_true_2 by eauto. cbn [andb negb].
  cbv [bind item ret]. rewrite Ho, Hs, Hy. cbv beta iota.
  by destruct (new_entry owner stamp year s) as [[idx|e|] s'].
Qed.

(** The route on a body that is not a dict: the test fails, or something
    that cannot be searched or read by key is searched or read by key. *)
Lemma new_transaction_not_object body s :
  (forall d, body <> AObj d) ->
  new_transaction body s = (Ret (Text "Brakujące wartości", 400), s)
  \/ new_transaction body s = (Raise TypeError, s).
Proof.
  intros Hbody. destruct body as [|b|n|f|t|l|d]; try (by right);
    [| |by destruct (Hbody d)].
  - unfold new_transaction, required. cbn [all_in]. unfold bind, py_in, ret.
    destruct (is_substring "owner" t); [|by left].
    destruct (is_substring "stamp" t); [|by left].
    destruct (is_substring "year" t); [by right|by left].
  - unfold new_transaction, required. cbn [all_in]. unfold bind, py_in, ret.
    destruct (existsb _ l); [|by left].
    destruct (existsb _ l); [|by left].
    destruct (existsb _ l); [by right|by left].
Qed.
End Operations.

(** ** The claims of the specification *)

Section Claims.
Context `{FloatRepr}.
Implicit Types (s : state) (b : block).

Lemma last_index s lb :
  inv s -> last (chain s) = Some lb -> index lb = Z.of_nat (List.length (chain s)).
Proof.
  intros Hi Hlast. rewrite last_lookup in Hlast.
  rewrite (inv_index s Hi _ _ Hlast).
  pose proof (inv_nonempty s Hi). destruct (chain s); simpl; [done|lia].
Qed.

Lemma buffer_after_entry s e :
  inv s -> buffer (after_entry s e) = (buffer s ++ [e])%list.
Proof.
  intros Hi. unfold buffer, deref. simpl.
  rewrite list_lookup_total_alter_eq; [done|apply (inv_current s Hi)].
Qed.

Lemma deref_after_seal s blk l :
  (l < List.length (store s))%nat -> deref (store (after_seal s blk)) l = deref (store s) l.
Proof. intros Hl. unfold deref. simpl. by rewrite lookup_total_app_l. Qed.

Lemma buffer_after_seal s blk : buffer (after_seal s blk) = [].
Proof.
  unfold buffer, deref. simpl.
  rewrite lookup_total_app_r by lia. by rewrite Nat.sub_diag.
Qed.

(** C1. Chain integrity: in every state reached from [Blockchain()] by
    [new_entry] and [mine] operations, a block that has a predecessor in
    the chain holds, as its [previous_hash], the hash of that predecessor
    as it stands in the chain. *)
Theorem chain_integrity (s : state) (i : nat) (p b : block) :
  reachable s ->
  chain s !! i = Some p -> chain s !! S i = Some b ->
  previous_hash b = hash (store s) (block_items p).
Proof. intros Hr. apply inv_link. by apply reachable_inv. Qed.

(** C2. Proof validity: in every reachable state, a block of index greater
    than 1 is not the first of the chain, and its proof is valid against
    the proof of the block just before it, which is [chain[index - 2]]. *)
Theorem proof_validity (s : state) (i : nat) (b : block) :
  reachable s ->
  chain s !! i = Some b -> 1 < index b ->
  exists p, chain s !! pred i = Some p
    /\ (0 < i)%nat /\ Z.of_nat (pred i) = index b - 2
    /\ valid_proof (proof p) (proof b) = true.
Proof.
  intros Hi%reachable_inv Hb Hidx.
  pose proof (inv_index s Hi i b Hb) as Hib.
  destruct i as [|i]; [lia|]. simpl.
  destruct (chain s !! i) as [p|] eqn:Hp.
  - exists p. repeat split; [lia|lia|]. by eapply inv_proof.
  - apply lookup_ge_None in Hp. apply lookup_lt_Some in Hb. lia.
Qed.

(** C5. Sealing: in a reachable state, [new_block(proof)] returns a block
    that it has put at the end of the chain, numbered one more than the
    length of the chain before the call, holding the list that was the
    pending buffer with the entries it had, and the hash of the block that
    was last; the pending buffer is then a new, empty list. *)
Theorem new_block_seals (s : state) (now : float) (p : Z) :
  reachable s ->
  exists lb blk s',
    last (chain s) = Some lb
    /\ new_block now p None s = (Ret blk, s')
    /\ chain s' = (chain s ++ [blk])%list
    /\ index blk = Z.of_nat (List.length (chain s)) + 1
    /\ data blk = current_data s
    /\ deref (store s') (data blk) = buffer s
    /\ previous_hash blk = hash (store s) (block_items lb)
    /\ proof blk = p /\ timestamp blk = now
    /\ buffer s' = []
    /\ current_data s' <> data blk.
Proof.
  intros Hi%reachable_inv. destruct (inv_last s Hi) as [lb Hlast].
  exists lb, (sealed s now p lb), (after_seal s (sealed s now p lb)).
  pose proof (inv_current s Hi) as Hcur.
  split; [done|]. split; [by apply new_block_default|].
  repeat split.
  - by apply deref_after_seal.
  - apply buffer_after_seal.
  - simpl. lia.
Qed.

(** C6. Genesis: the constructor ends without an exception, whatever the
    clock says and with no test of the proof-of-work predicate; it leaves a
    chain of one block of index 1, with no entries, proof 100 and
    previous hash ['1'], and an empty pending buffer that is another list
    than the block's. *)
Theorem genesis_block (now : float) :
  __init__ now {| store := []; chain := []; current_data := 0%nat |}
  = (Ret tt, Blockchain now)
  /\ exists g, chain (Blockchain now) = [g]
      /\ index g = 1
      /\ deref (store (Blockchain now)) (data g) = []
      /\ proof g = 100
      /\ previous_hash g = "1"
      /\ timestamp g = now
      /\ buffer (Blockchain now) = []
      /\ data g <> current_data (Blockchain now).
Proof. split; [done|]. eexists. by repeat split. Qed.

(** C7. Entry hint: in a reachable state, [new_entry] puts the entry at
    the end of the pending buffer, touches no other list and no block, and
    returns the index of the last block plus 1. If [mine] is the next
    operation and returns, the block it adds has that index and holds the
    buffer with the entry at its end; and [mine] does return, given enough
    fuel, as soon as the puzzle has a solution. *)
Theorem new_entry_hint (s : state) (owner stamp year : atom) :
  reachable s ->
  let e := [("owner", owner); ("stamp", stamp); ("year", year)] in
  exists lb s1,
    last (chain s) = Some lb
    /\ new_entry owner stamp year s = (Ret (index lb + 1), s1)
    /\ chain s1 = chain s
    /\ buffer s1 = (buffer s ++ [e])%list
    /\ (forall l, l <> current_data s -> deref (store s1) l = deref (store s) l)
    /\ (forall fuel now r s2, mine fuel now s1 = (r, s2) -> r <> Diverge ->
          exists blk d,
            r = Ret (Jsonify d, 200)
            /\ get "index" d = Some (VInt (index lb + 1))
            /\ get "transactions" d = Some (VData (data blk))
            /\ chain s2 = (chain s ++ [blk])%list
            /\ index blk = index lb + 1
            /\ deref (store s2) (data blk) = (buffer s ++ [e])%list)
    /\ (forall p, 0 <= p -> valid_proof (proof lb) p = true ->
          exists fuel, forall fuel' now, (fuel <= fuel')%nat ->
            fst (mine fuel' now s1) <> Diverge).
Proof.
  intros Hi%reachable_inv e. destruct (inv_last s Hi) as [lb Hlast].
  exists lb, (after_entry s e).
  pose proof (inv_after_entry s e Hi) as Hi1.
  assert (Hlast1 : last (chain (after_entry s e)) = Some lb) by done.
  split; [done|]. split; [by rewrite new_entry_run, Hlast|].
  split; [done|]. split; [by apply buffer_after_entry|]. split; [|split].
  - intros l Hl. unfold deref. simpl. by rewrite list_lookup_total_alter_ne.
  - intros fuel now r s2. rewrite (mine_run _ fuel now lb Hlast1).
    destruct (proof_of_work fuel (proof lb)) as [p|]; [|by intros [= <- _]].
    intros [= <- <-] _. eexists _, _. split; [done|].
    rewrite (last_index s lb Hi Hlast).
    repeat split; [done|].
    rewrite deref_after_seal by apply (inv_current _ Hi1).
    by apply buffer_after_entry.
  - intros p Hp Hvalid.
    destruct (proof_of_work_from_complete (S (Z.to_nat p)) (proof lb) 0 p)
      as [q Hq]; [done|lia|lia|].
    exists (S (Z.to_nat p)). intros fuel' now Hfuel.
    rewrite (mine_run _ fuel' now lb Hlast1). unfold proof_of_work.
    by rewrite (proof_of_work_from_more_fuel _ fuel' _ _ _ Hq Hfuel).
Qed.

(** C8. Determinism of the hash: two dicts that give the same value to
    every field, lists being compared by their entries in order, have the
    same hash, in whatever order their fields were inserted and wherever
    their lists are stored. Values are the same when they are identical:
    of the same type and, for floats, the same binary64 datum. *)
Theorem hash_deterministic (h1 h2 : list (list entry)) (d1 d2 : dict) :
  NoDup (keys d1) -> NoDup (keys d2) ->
  (forall k, field h1 d1 k = field h2 d2 k) ->
  hash h1 d1 = hash h2 d2.
Proof.
  intros Hd1 Hd2 Hfield. apply hash_resolve, sorted_order_irrelevant.
  - by rewrite keys_resolve.
  - apply same_get_Permutation; rewrite ?keys_resolve; [done..|].
    intros k. by rewrite !get_resolve.
Qed.

End Claims.

(** C3. The predicate of the puzzle: [valid_proof(last_proof, proof)] is
    true exactly when each of the first four characters of the hexadecimal
    SHA-256 digest of the two numbers in decimal, written one after the
    other, is the digit zero. The digest is [guess_digest], written from
    the words: decimal digits by division, lowercase hexadecimal by
    arithmetic; the code's [str], [encode] and [hexdigest] are shown to
    agree with it. *)
Theorem valid_proof_iff (last_proof proof : Z) :
  valid_proof last_proof proof = true
  <-> four_leading_zeros (guess_digest last_proof proof).
Proof.
  unfold valid_proof. cbv zeta. rewrite guess_digest_code.
  generalize (guess_digest last_proof proof). intros d.
  unfold four_leading_zeros. rewrite String.eqb_eq. split.
  - intros Heq i Hi.
    destruct d as [|c1 [|c2 [|c3 [|c4 d]]]]; simpl in Heq; try done.
    assert (Hd : substring 0 0 d = "") by (by destruct d).
    rewrite Hd in Heq. injection Heq as -> -> -> ->.
    destruct i as [|[|[|[|i]]]]; simpl; [done..|lia].
  - intros Hget.
    pose proof (Hget 0%nat ltac:(lia)) as H0.
    pose proof (Hget 1%nat ltac:(lia)) as H1.
    pose proof (Hget 2%nat ltac:(lia)) as H2.
    pose proof (Hget 3%nat ltac:(lia)) as H3.
    destruct d as [|c1 [|c2 [|c3 [|c4 d]]]]; simpl in *; try done.
    injection H0 as ->. injection H1 as ->. injection H2 as ->. injection H3 as ->.
    by destruct d.
Qed.

(** C4. The search: when some proof that is not negative is valid against
    [last_proof], [proof_of_work(last_proof)] returns, with enough fuel and
    with any more, the least valid proof that is not negative. *)
Theorem proof_of_work_least (last_proof p : Z) :
  0 <= p -> valid_proof last_proof p = true ->
  exists fuel q,
    (forall fuel', (fuel <= fuel')%nat -> proof_of_work fuel' last_proof = Some q)
    /\ 0 <= q <= p
    /\ valid_proof last_proof q = true
    /\ (forall r, 0 <= r -> valid_proof last_proof r = true -> q <= r).
Proof.
  intros Hp Hvalid.
  destruct (proof_of_work_from_complete (S (Z.to_nat p)) last_proof 0 p)
    as [q Hq]; [done|lia|lia|].
  pose proof (proof_of_work_from_sound _ _ _ _ Hq) as (Hvq & Hle & Hmin).
  exists (S (Z.to_nat p)), q. split; [|split; [|split]].
  - intros fuel' Hfuel. by eapply proof_of_work_from_more_fuel.
  - split; [done|]. destruct (decide (q <= p)) as [|Hgt]; [done|].
    rewrite Hmin in Hvalid by lia. done.
  - done.
  - intros r Hr Hvr. destruct (decide (q <= r)) as [|Hgt]; [done|].
    rewrite Hmin in Hvr by lia. done.
Qed.

(** C10. The puzzle sees the two numbers only through their decimal texts
    written one after the other: pairs with the same text are valid
    together or not at all. *)
Theorem valid_proof_same_text (a b c d : Z) :
  0 <= a -> 0 <= b -> 0 <= c -> 0 <= d ->
  str_of_int a ++ str_of_int b = str_of_int c ++ str_of_int d ->
  valid_proof a b = valid_proof c d.
Proof. intros _ _ _ _ Htext. unfold valid_proof. by rewrite Htext. Qed.

(** ** The run evaluated *)

Section Run.
#[local] Existing Instance float_repr_cpython.

Lemma valid_proof_100_35293 : valid_proof 100 35293 = true.
Proof. vm_compute. reflexivity. Qed.

Lemma fresh_state_run : Blockchain t0 = fresh_state.
Proof. reflexivity. Qed.

Lemma pending_state_run :
  run (NewEntry (AStr "Alice") (AStr "Penny Black") (AInt 1840)) fresh_state
  = Some pending_state.
Proof. reflexivity. Qed.

(** The search tries 0, 1, ..., 35292 in vain and stops at 35293. *)
Lemma proof_of_work_100 : proof_of_work enough_fuel 100 = Some 35293.
Proof. vm_cast_no_check (eq_refl (Some 35293)). Qed.

Lemma mined_state_run : run (Mine enough_fuel t1) pending_state = Some mined_state.
Proof.
  etrans;
    [exact (run_mine pending_state enough_fuel t1 genesis 35293 eq_refl proof_of_work_100)|].
  vm_compute. reflexivity.
Qed.

Lemma fresh_state_reachable : reachable fresh_state.
Proof. exists t0, []. reflexivity. Qed.

Lemma pending_state_reachable : reachable pending_state.
Proof. eapply reachable_run; [apply fresh_state_reachable|apply pending_state_run]. Qed.

Lemma mined_state_reachable : reachable mined_state.
Proof. eapply reachable_run; [apply pending_state_reachable|apply mined_state_run]. Qed.
End Run.

(** ** The claims on the run *)

Section Witnesses.
#[local] Existing Instance float_repr_cpython.

Lemma chain_integrity_witness :
  reachable mined_state
  /\ chain mined_state !! 0%nat = Some genesis
  /\ chain mined_state !! 1%nat = Some second
  /\ previous_hash second = hash (store mined_state) (block_items genesis).
Proof.
  split; [exact mined_state_reachable|]. split; [reflexivity|]. split; [reflexivity|].
  apply (chain_integrity mined_state 0 genesis second mined_state_reachable);
    reflexivity.
Defined.

Lemma proof_validity_witness :
  reachable mined_state
  /\ chain mined_state !! 1%nat = Some second
  /\ 1 < index second
  /\ exists p, chain mined_state !! 0%nat = Some p
       /\ (0 < 1)%nat /\ Z.of_nat 0 = index second - 2
       /\ valid_proof (proof p) (proof second) = true.
Proof.
  split; [exact mined_state_reachable|]. split; [reflexivity|]. split; [reflexivity|].
  apply (proof_validity mined_state 1 second mined_state_reachable); reflexivity.
Defined.

Lemma proof_of_work_least_witness :
  0 <= 35293
  /\ valid_proof 100 35293 = true
  /\ exists fuel q,
       (forall fuel', (fuel <= fuel')%nat -> proof_of_work fuel' 100 = Some q)
       /\ 0 <= q <= 35293
       /\ valid_proof 100 q = true
       /\ (forall r, 0 <= r -> valid_proof 100 r = true -> q <= r).
Proof.
  split; [lia|]. split; [vm_compute; reflexivity|].
  apply (proof_of_work_least 100 35293); [lia|vm_compute; reflexivity].
Defined.

Lemma new_block_seals_witness :
  reachable pending_state
  /\ exists lb blk s',
       last (chain pending_state) = Some lb
       /\ new_block t1 35293 None pending_state = (Ret blk, s')
       /\ chain s' = (chain pending_state ++ [blk])%list
       /\ index blk = Z.of_nat (List.length (chain pending_state)) + 1
       /\ data blk = current_data pending_state
       /\ deref (store s') (data blk) = buffer pending_state
       /\ previous_hash blk = hash (store pending_state) (block_items lb)
       /\ proof blk = 35293 /\ timestamp blk = t1
       /\ buffer s' = []
       /\ current_data s' <> data blk.
Proof.
  split; [exact pending_state_reachable|].
  exact (new_block_seals pending_state t1 35293 pending_state_reachable).
Defined.

Lemma new_entry_hint_witness :
  reachable fresh_state
  /\ exists lb s1,
       last (chain fresh_state) = Some lb
       /\ new_entry (AStr "Alice") (AStr "Penny Black") (AInt 1840) fresh_state
          = (Ret (index lb + 1), s1)
       /\ chain s1 = chain fresh_state
       /\ buffer s1 = (buffer fresh_state ++ [alice])%list
       /\ (forall l, l <> current_data fresh_state ->
             deref (store s1) l = deref (store fresh_state) l)
       /\ (forall fuel now r s2, mine fuel now s1 = (r, s2) -> r <> Diverge ->
             exists blk d,
               r = Ret (Jsonify d, 200)
               /\ get "index" d = Some (VInt (index lb + 1))
               /\ get "transactions" d = Some (VData (data blk))
               /\ chain s2 = (chain fresh_state ++ [blk])%list
               /\ index blk = index lb + 1
               /\ deref (store s2) (data blk) = (buffer fresh_state ++ [alice])%list)
       /\ (forall p, 0 <= p -> valid_proof (proof lb) p = true ->
             exists fuel, forall fuel' now, (fuel <= fuel')%nat ->
               fst (mine fuel' now s1) <> Diverge).
Proof.
  split; [exact fresh_state_reachable|].
  exact (new_entry_hint fresh_state (AStr "Alice") (AStr "Penny Black") (AInt 1840)
           fresh_state_reachable).
Defined.

(** The second block with its fields written in the reverse order and its
    list stored elsewhere. *)
Lemma hash_deterministic_witness :
  let d1 := block_items second in
  let d2 := [("previous_hash", VStr (previous_hash second));
             ("proof", VInt 35293);
             ("data", VData 0%nat);
             ("timestamp", VFloat t1);
             ("index", VInt 2)] in
  NoDup (keys d1) /\ NoDup (keys d2)
  /\ (forall k, field (store mined_state) d1 k = field [[alice]] d2 k)
  /\ hash (store mined_state) d1 = hash [[alice]] d2.
Proof.
  intros d1 d2.
  assert (Hd1 : NoDup (keys d1)) by (apply (bool_decide_unpack _); vm_compute; exact I).
  assert (Hd2 : NoDup (keys d2)) by (apply (bool_decide_unpack _); vm_compute; exact I).
  assert (Hfield : forall k, field (store mined_state) d1 k = field [[alice]] d2 k).
  { intros k. unfold field, d1, d2, block_items, get.
    destruct (String.eqb_spec k "index") as [->|_]; [reflexivity|].
    destruct (String.eqb_spec k "timestamp") as [->|_]; [reflexivity|].
    destruct (String.eqb_spec k "data") as [->|_]; [reflexivity|].
    destruct (String.eqb_spec k "proof") as [->|_]; [reflexivity|].
    destruct (String.eqb_spec k "previous_hash") as [->|_]; reflexivity. }
  split; [exact Hd1|]. split; [exact Hd2|]. split; [exact Hfield|].
  exact (hash_deterministic (store mined_state) [[alice]] d1 d2 Hd1 Hd2 Hfield).
Defined.



(** The digests of three pairs, as [sha256sum] gives them for the texts
    10035293, 10035292 and -15, and what [valid_proof] answers on them: the
    first begins with four zeros, the others do not. *)
Lemma valid_proof_iff_witness :
  guess_digest 100 35293
  = "0000c415de5ceea33c02daa85a1c218ecca1b1c9e9864ed34d183597844de8e2"
  /\ valid_proof 100 35293 = true
  /\ guess_digest 100 35292
     = "d4e50553fbe7451938e0a58718f1a2da01a611f2503bda5414518ad4303d9c87"
  /\ valid_proof 100 35292 = false
  /\ guess_digest (-1) 5
     = "5e37b37c842d8df7106ee92e2e45beefef71ca60f51f7bb5cb50cb1e81c355a8"
  /\ valid_proof (-1) 5 = false.
Proof.
  assert (Hvalid : guess_digest 100 35293
    = "0000c415de5ceea33c02daa85a1c218ecca1b1c9e9864ed34d183597844de8e2")
    by (vm_compute; reflexivity).
  assert (Hbelow : guess_digest 100 35292
    = "d4e50553fbe7451938e0a58718f1a2da01a611f2503bda5414518ad4303d9c87")
    by (vm_compute; reflexivity).
  assert (Hminus : guess_digest (-1) 5
    = "5e37b37c842d8df7106ee92e2e45beefef71ca60f51f7bb5cb50cb1e81c355a8")
    by (vm_compute; reflexivity).
  split; [exact Hvalid|]. split.
  { apply (proj2 (valid_proof_iff 100 35293)). rewrite Hvalid.
    intros i Hi. destruct i as [|[|[|[|i]]]]; [reflexivity..|lia]. }
  split; [exact Hbelow|]. split.
  { destruct (valid_proof 100 35292) eqn:Hv; [|reflexivity].
    pose proof (proj1 (valid_proof_iff 100 35292) Hv 0%nat ltac:(lia)) as Hget.
    rewrite Hbelow in Hget. discriminate Hget. }
  split; [exact Hminus|].
  destruct (valid_proof (-1) 5) eqn:Hv; [|reflexivity].
  pose proof (proj1 (valid_proof_iff (-1) 5) Hv 0%nat ltac:(lia)) as Hget.
  rewrite Hminus in Hget. discriminate Hget.
Defined.

(** The pairs (1, 23) and (12, 3) both read 123. *)
Lemma valid_proof_same_text_witness :
  0 <= 1 /\ 0 <= 23 /\ 0 <= 12 /\ 0 <= 3
  /\ str_of_int 1 ++ str_of_int 23 = str_of_int 12 ++ str_of_int 3
  /\ valid_proof 1 23 = valid_proof 12 3.
Proof.
  split; [lia|]. split; [lia|]. split; [lia|]. split; [lia|]. split; [reflexivity|].
  apply (valid_proof_same_text 1 23 12 3); [lia|lia|lia|lia|reflexivity].
Defined.
End Witnesses.


(** * Further properties of the code *)

(** ** Runs and the states they reach *)

Section Reach.
Context `{FloatRepr}.
Implicit Types (s : state) (b : block).

Lemma run_all_app ops1 ops2 s :
  run_all (ops1 ++ ops2)%list s
  = match run_all ops1 s with Some s' => run_all ops2 s' | None => None end.
Proof.
  revert s. induction ops1 as [|o ops1 IH]; intros s; simpl; [done|].
  destruct (run o s); [apply IH|done].
Qed.

Lemma reachable_run_all ops s s' : reachable s -> run_all ops s = Some s' -> reachable s'.
Proof.
  revert s. induction ops as [|o ops IH]; simpl; intros s Hr.
  - by intros [= <-].
  - destruct (run o s) as [s1|] eqn:Ho; [|done]. apply IH. by eapply reachable_run.
Qed.

(** What one operation does to a state that satisfies the invariant. *)
Lemma run_cases o s s' :
  inv s -> run o s = Some s' ->
  (exists owner stamp year,
     o = NewEntry owner stamp year /\ s' = after_entry s (entry_of owner stamp year))
  \/ (exists fuel now lb p,
        o = Mine fuel now /\ last (chain s) = Some lb
        /\ proof_of_work fuel (proof lb) = Some p
        /\ s' = after_seal s (sealed s now p lb)).
Proof.
  intros Hi. destruct (inv_last s Hi) as [lb Hlast].
  destruct o as [owner stamp year|fuel now]; simpl.
  - rewrite new_entry_run. simpl. intros [= <-]. left. by eexists _, _, _.
  - rewrite (mine_run s fuel now lb Hlast).
    destruct (proof_of_work fuel (proof lb)) as [p|] eqn:Hp; simpl; [|done].
    intros [= <-]. right. by eexists _, _, _, _.
Qed.

(** Induction on the states reached from the constructor at time [now]. *)
Lemma run_all_ind (now : float) (P : state -> Prop) :
  P (Blockchain now) ->
  (forall s e, inv s -> P s -> P (after_entry s e)) ->
  (forall s fuel t p lb, inv s -> P s -> last (chain s) = Some lb ->
     proof_of_work fuel (proof lb) = Some p -> P (after_seal s (sealed s t p lb))) ->
  forall ops s, run_all ops (Blockchain now) = Some s -> P s.
Proof.
  intros Hinit Hentry Hseal ops.
  assert (Hgen : forall s0 s, inv s0 -> P s0 -> run_all ops s0 = Some s -> P s).
  { induction ops as [|o ops IH]; simpl; intros s0 s Hi HP.
    - by intros [= <-].
    - destruct (run o s0) as [s1|] eqn:Ho; [|done].
      apply IH; [by eapply inv_run|].
      destruct (run_cases o s0 s1 Hi Ho)
        as [(owner & stamp & year & _ & ->)|(fuel & t & lb & p & _ & Hl & Hp & ->)];
        eauto. }
  intros s. apply Hgen; [apply inv_Blockchain|done].
Qed.

Lemma reachable_layout s : reachable s -> layout s.
Proof.
  intros (now & ops & Hrun). revert ops s Hrun. apply run_all_ind.
  - by split; [..|intros [|[|i]] b; simpl; [intros [= <-]|..]].
  - intros s e _ [Hst Hcur Hdata]. split; simpl; [by rewrite length_alter|done..].
  - intros s fuel t p lb _ [Hst Hcur Hdata] _ _. split; simpl.
    + rewrite !length_app. simpl. lia.
    + rewrite length_app. simpl. lia.
    + intros i b [[Hi Hb]|[-> <-]]%lookup_snoc_Some; [eauto|done].
Qed.

Lemma reachable_least_proofs s : reachable s -> least_proofs s.
Proof.
  intros (now & ops & Hrun). revert ops s Hrun. apply run_all_ind.
  - intros [|i] p b; simpl; done.
  - intros s e _ Hl. exact Hl.
  - intros s fuel t p lb _ Hl Hlast Hp i q b. simpl.
    intros [[Hi Hq]|[-> <-]]%lookup_snoc_Some Hb.
    + apply lookup_snoc_Some in Hb as [[Hi' Hb]|[Hi' <-]]; [eauto|].
      simpl. rewrite last_lookup in Hlast.
      replace i with (pred (List.length (chain s))) in Hq by lia.
      assert (q = lb) as -> by congruence.
      apply proof_of_work_from_sound in Hp as (_ & Hle & Hmin). split; [done|].
      intros r Hr. by apply Hmin.
    + apply lookup_snoc_Some in Hb as [[Hi' Hb]|[Hi' _]]; lia.
Qed.

Lemma run_all_genesis_first now ops s :
  run_all ops (Blockchain now) = Some s -> genesis_first now s.
Proof.
  revert ops s. apply run_all_ind.
  - done.
  - intros s e Hi [Hg Hd]. split; [done|].
    assert (Hin : {| index := 1; timestamp := now; data := 0%nat; proof := 100;
                     previous_hash := "1" |} ∈ chain s)
      by (by eapply list_elem_of_lookup_2).
    destruct (inv_sealed s Hi _ Hin) as [_ Hne]. simpl in Hne.
    unfold deref. simpl. by rewrite list_lookup_total_alter_ne.
  - intros s fuel t p lb Hi [Hg Hd] _ _. split; simpl.
    + by apply lookup_app_l_Some.
    + assert (Hin : {| index := 1; timestamp := now; data := 0%nat; proof := 100;
                       previous_hash := "1" |} ∈ chain s)
        by (by eapply list_elem_of_lookup_2).
      destruct (inv_sealed s Hi _ Hin) as [Hlt _]. simpl in Hlt.
      unfold deref. by rewrite lookup_total_app_l.
Qed.

Lemma run_all_keeps_blocks ops s s' :
  inv s -> run_all ops s = Some s' ->
  (exists added, chain s' = (chain s ++ added)%list)
  /\ forall b, b ∈ chain s ->
       deref (store s') (data b) = deref (store s) (data b)
       /\ hash (store s') (block_items b) = hash (store s) (block_items b).
Proof.
  revert s. induction ops as [|o ops IH]; simpl; intros s Hi.
  - intros [= <-]. split; [exists []; by rewrite app_nil_r|done].
  - destruct (run o s) as [s1|] eqn:Ho; [|done]. intros Hrun.
    destruct (run_keeps_blocks o s s1 Hi Ho) as [[a1 Ha1] Hk1].
    destruct (IH s1 (inv_run o s s1 Hi Ho) Hrun) as [[a2 Ha2] Hk2].
    split.
    + exists (a1 ++ a2)%list. by rewrite Ha2, Ha1, app_assoc.
    + intros b Hb. destruct (Hk1 b Hb) as [Hd1 Hh1].
      assert (Hb1 : b ∈ chain s1) by (rewrite Ha1; apply elem_of_app; by left).
      destruct (Hk2 b Hb1) as [Hd2 Hh2]. split; congruence.
Qed.

Lemma sealed_entries_after_entry s e :
  inv s -> sealed_entries (after_entry s e) = sealed_entries s.
Proof.
  intros Hi. unfold sealed_entries. simpl. f_equal.
  apply map_ext_in. intros b Hb%list_elem_of_In.
  destruct (inv_sealed s Hi b Hb) as [_ Hne].
  unfold deref. by rewrite list_lookup_total_alter_ne.
Qed.

Lemma sealed_entries_after_seal s t p lb :
  inv s ->
  sealed_entries (after_seal s (sealed s t p lb)) = (sealed_entries s ++ buffer s)%list.
Proof.
  intros Hi. unfold sealed_entries. simpl.
  rewrite map_app, concat_app. simpl. rewrite app_nil_r. f_equal.
  - f_equal. apply map_ext_in. intros b Hb%list_elem_of_In.
    destruct (inv_sealed s Hi b Hb) as [Hlt _].
    unfold deref. by rewrite lookup_total_app_l.
  - unfold buffer, deref. rewrite lookup_total_app_l; [done|apply (inv_current s Hi)].
Qed.

Lemma entries_run_all ops s s' :
  inv s -> run_all ops s = Some s' ->
  (sealed_entries s' ++ buffer s')%list
  = ((sealed_entries s ++ buffer s) ++ submitted ops)%list.
Proof.
  revert s. induction ops as [|o ops IH]; simpl; intros s Hi.
  - intros [= <-]. by rewrite app_nil_r.
  - destruct (run o s) as [s1|] eqn:Ho; [|done]. intros Hrun.
    rewrite (IH s1 (inv_run o s s1 Hi Ho) Hrun).
    destruct (run_cases o s s1 Hi Ho)
      as [(owner & stamp & year & -> & ->)|(fuel & t & lb & p & -> & Hl & Hp & ->)].
    + rewrite sealed_entries_after_entry, buffer_after_entry by done.
      simpl. by rewrite <- !app_assoc.
    + rewrite sealed_entries_after_seal, buffer_after_seal by done.
      simpl. by rewrite app_nil_r.
Qed.

Lemma chain_length_run_all ops s s' :
  inv s -> run_all ops s = Some s' ->
  List.length (chain s') = (List.length (chain s) + mines ops)%nat.
Proof.
  revert s. induction ops as [|o ops IH]; simpl; intros s Hi.
  - intros [= <-]. lia.
  - destruct (run o s) as [s1|] eqn:Ho; [|done]. intros Hrun.
    rewrite (IH s1 (inv_run o s s1 Hi Ho) Hrun).
    destruct (run_cases o s s1 Hi Ho)
      as [(owner & stamp & year & -> & ->)|(fuel & t & lb & p & -> & Hl & Hp & ->)];
      simpl; [done|].
    rewrite length_app. simpl. lia.
Qed.
End Reach.

(** ** The methods one by one *)

Section Methods.
Context `{FloatRepr}.
Implicit Types (s : state) (b : block).

Lemma last_block_run s :
  last_block s
  = (match last (chain s) with Some b => Ret b | None => Raise IndexError end, s).
Proof. unfold last_block, bind, gets. simpl. by destruct (last (chain s)). Qed.

Lemma mine_empty_chain s fuel now : chain s = [] -> mine fuel now s = (Raise IndexError, s).
Proof.
  intros Hnil. cbv [mine last_block bind gets ret raise]. cbn [fst snd].
  by rewrite Hnil.
Qed.

(** [new_block] with a previous hash that is not the empty string. *)
Lemma new_block_given s now p ph :
  ph <> "" ->
  let blk := {| index := Z.of_nat (List.length (chain s)) + 1; timestamp := now;
                data := current_data s; proof := p; previous_hash := ph |} in
  new_block now p (Some ph) s = (Ret blk, after_seal s blk).
Proof. intros Hph. by destruct ph. Qed.

Lemma new_block_empty_string s now p :
  new_block now p (Some "") s = new_block now p None s.
Proof. unfold new_block. cbn [truthy]. reflexivity. Qed.

Lemma proof_of_work_from_None fuel last_proof q :
  proof_of_work_from fuel last_proof q = None
  <-> forall p, q <= p < q + Z.of_nat fuel -> valid_proof last_proof p = false.
Proof.
  revert q. induction fuel as [|fuel IH]; intros q; simpl.
  - split; [intros _ p Hp; lia|done].
  - destruct (valid_proof last_proof q) eqn:Hq; simpl.
    + split; [done|]. intros Hall. rewrite Hall in Hq by lia. done.
    + rewrite IH. split; intros Hall p Hp.
      * destruct (decide (p = q)) as [->|Hne]; [done|]. apply Hall. lia.
      * apply Hall. lia.
Qed.

Lemma new_entries_run es s lb :
  inv s -> last (chain s) = Some lb ->
  new_entries es s = (Ret (repeat (index lb + 1) (List.length es)), after_entries s es)
  /\ inv (after_entries s es)
  /\ chain (after_entries s es) = chain s
  /\ current_data (after_entries s es) = current_data s
  /\ buffer (after_entries s es)
     = (buffer s ++ map (fun e => entry_of e.1.1 e.1.2 e.2) es)%list.
Proof.
  revert s. induction es as [|[[owner stamp] year] es IH]; intros s Hi Hlast.
  - simpl. by rewrite app_nil_r.
  - pose proof (inv_after_entry s (entry_of owner stamp year) Hi) as Hi1.
    destruct (IH (after_entry s (entry_of owner stamp year)) Hi1 Hlast)
      as (Hrun & Hinv & Hchain & Hcur & Hbuf).
    unfold after_entries in *. cbn [fold_left fst snd List.length repeat map].
    split; [|split; [done|split; [done|split; [done|]]]].
    + cbn [new_entries]. unfold bind at 1. rewrite new_entry_run, Hlast.
      fold (entry_of owner stamp year). unfold bind at 1. by rewrite Hrun.
    + rewrite Hbuf, buffer_after_entry by done. by rewrite <- app_assoc.
Qed.
End Methods.

(** ** Properties of the ledger beyond the specification *)

Section Extras.
Context `{FloatRepr}.
Implicit Types (s : state) (b : block).

(** X1. Indices are positions: in every reachable state the block at
    position [i], counted from 0, has index [i + 1]; the indices start at 1
    and have no gap. *)
Theorem index_is_position (s : state) (i : nat) (b : block) :
  reachable s -> chain s !! i = Some b -> index b = Z.of_nat i + 1.
Proof. intros Hr. apply inv_index. by apply reachable_inv. Qed.

(** X2. No entry is lost, doubled or moved: after any run from the
    constructor, the entries of the blocks in chain order, followed by the
    pending buffer, are the entries given to [new_entry], in the order they
    were given. *)
Theorem entries_conserved (now : float) (ops : list op) (s : state) :
  run_all ops (Blockchain now) = Some s ->
  (sealed_entries s ++ buffer s)%list = submitted ops.
Proof.
  intros Hrun. by rewrite (entries_run_all ops _ s (inv_Blockchain now) Hrun).
Qed.

(** X3. The route [/chain] leaves the state as it is and reports the chain
    with its length, which after a run from the constructor is 1 plus the
    number of [mine] operations of the run: [new_entry] adds no block and
    [mine] adds one. *)
Theorem full_chain_length (now : float) (ops : list op) (s : state) :
  run_all ops (Blockchain now) = Some s ->
  full_chain s
  = (Ret ([("chain", FChain (chain s));
           ("length", FLength (1 + Z.of_nat (mines ops)))], 200), s).
Proof.
  intros Hrun.
  pose proof (chain_length_run_all ops _ s (inv_Blockchain now) Hrun) as Hlen.
  change (List.length (chain (Blockchain now))) with 1%nat in Hlen.
  unfold full_chain, bind, gets, ret. rewrite Hlen.
  by replace (Z.of_nat (1 + mines ops)) with (1 + Z.of_nat (mines ops)) by lia.
Qed.

(** X4. The chain only grows: whatever operations follow a reachable state,
    its blocks stay at the head of the chain, with the entries and the hash
    they had. *)
Theorem chain_append_only (s s' : state) (ops : list op) :
  reachable s -> run_all ops s = Some s' ->
  (exists added, chain s' = (chain s ++ added)%list)
  /\ forall b, b ∈ chain s ->
       deref (store s') (data b) = deref (store s) (data b)
       /\ hash (store s') (block_items b) = hash (store s) (block_items b).
Proof. intros Hr. apply run_all_keeps_blocks. by apply reachable_inv. Qed.

(** X5. Exceptions in a reachable state: [last_block], [new_entry] and
    [new_block] return a value, the route [/mine] returns one or is still
    searching, and so does the route [/transactions/new] when the body of
    the request is a dict. The only exception that route can end in is a
    [TypeError], for a body that is not a dict, and the state is then what
    it was. *)
Theorem no_exception (s : state) :
  reachable s ->
  (exists lb, last_block s = (Ret lb, s))
  /\ (forall owner stamp year, exists n s', new_entry owner stamp year s = (Ret n, s'))
  /\ (forall now p ph, exists blk s', new_block now p ph s = (Ret blk, s'))
  /\ (forall d : entry, exists r s', new_transaction (AObj d) s = (Ret r, s'))
  /\ (forall body e s', new_transaction body s = (Raise e, s') ->
        e = TypeError /\ (forall d, body <> AObj d) /\ s' = s)
  /\ (forall fuel now e, fst (mine fuel now s) <> Raise e).
Proof.
  intros Hi%reachable_inv. destruct (inv_last s Hi) as [lb Hlast].
  assert (Hobj : forall d : entry, exists r s', new_transaction (AObj d) s = (Ret r, s')).
  { intros d. rewrite new_transaction_run.
    destruct (get "owner" d), (get "stamp" d), (get "year" d);
      try (by eexists _, _).
    rewrite new_entry_run, Hlast. by eexists _, _. }
  split; [|split; [|split; [|split; [|split]]]].
  - exists lb. by rewrite last_block_run, Hlast.
  - intros owner stamp year. eexists _, _. by rewrite new_entry_run, Hlast.
  - intros now p ph. destruct ph as [[|c ph]|].
    + rewrite new_block_empty_string. eexists _, _. by apply (new_block_default s now p lb).
    + eexists _, _. by apply (new_block_given s now p (String c ph)).
    + eexists _, _. by apply (new_block_default s now p lb).
  - exact Hobj.
  - intros body e s' Hraise.
    assert (Hbody : forall d, body <> AObj d).
    { intros d ->. destruct (Hobj d) as (r & s1 & Hr). congruence. }
    destruct (new_transaction_not_object body s Hbody) as [H400|Htype]; [congruence|].
    rewrite Htype in Hraise. by injection Hraise as <- <-.
  - intros fuel now e. rewrite (mine_run s fuel now lb Hlast).
    by destruct (proof_of_work fuel (proof lb)).
Qed.

(** X6. The search gives up exactly when it has seen no valid proof:
    [proof_of_work] with fuel for [n] candidates ends without a result if and
    only if none of 0, ..., n - 1 is valid. So with no valid proof at all it
    never returns. *)
Theorem proof_of_work_None_iff (fuel : nat) (last_proof : Z) :
  proof_of_work fuel last_proof = None
  <-> forall p, 0 <= p < Z.of_nat fuel -> valid_proof last_proof p = false.
Proof. unfold proof_of_work. by rewrite proof_of_work_from_None. Qed.

(** X8. The [or] of [new_block]: an empty string given as previous hash is
    taken as none given, and the hash of the last block is used; any other
    string is used as it is, and the chain is not read, so that the call
    succeeds on an empty chain too. *)
Theorem new_block_previous_hash (s : state) (now : float) (p : Z) (ph : string) :
  (ph = "" -> new_block now p (Some ph) s = new_block now p None s)
  /\ (ph <> "" ->
      let blk := {| index := Z.of_nat (List.length (chain s)) + 1; timestamp := now;
                    data := current_data s; proof := p; previous_hash := ph |} in
      new_block now p (Some ph) s = (Ret blk, after_seal s blk)).
Proof. split; [intros ->; apply new_block_empty_string|apply new_block_given]. Qed.

(** X9. On an empty chain [last_block], [new_block] without a previous hash
    and the route [/mine] raise [IndexError] and leave the state as it is;
    [/mine] does so before any search. The route [/chain] answers with an
    empty chain of length 0. *)
Theorem empty_chain_raises (s : state) :
  chain s = [] ->
  last_block s = (Raise IndexError, s)
  /\ (forall now p, new_block now p None s = (Raise IndexError, s))
  /\ (forall fuel now, mine fuel now s = (Raise IndexError, s))
  /\ full_chain s = (Ret ([("chain", FChain []); ("length", FLength 0)], 200), s).
Proof.
  intros Hnil. split; [|split; [|split]].
  - by rewrite last_block_run, Hnil.
  - intros now p. by apply new_block_empty_chain.
  - intros fuel now. by apply mine_empty_chain.
  - unfold full_chain, bind, gets, ret. by rewrite Hnil.
Qed.

(** X10. A failure that leaves a trace: on an empty chain [new_entry]
    raises [IndexError] after it has put the entry in the pending buffer,
    and so does the route [/transactions/new] given the three fields. *)
Theorem new_entry_empty_chain (s : state) (values : entry) (owner stamp year : atom) :
  chain s = [] -> (current_data s < List.length (store s))%nat ->
  get "owner" values = Some owner -> get "stamp" values = Some stamp ->
  get "year" values = Some year ->
  let s' := after_entry s (entry_of owner stamp year) in
  new_entry owner stamp year s = (Raise IndexError, s')
  /\ new_transaction (AObj values) s = (Raise IndexError, s')
  /\ buffer s' = (buffer s ++ [entry_of owner stamp year])%list.
Proof.
  intros Hnil Hcur Ho Hs Hy s'.
  assert (Hrun : new_entry owner stamp year s = (Raise IndexError, s'))
    by (by rewrite new_entry_run, Hnil).
  split; [done|]. split.
  - by rewrite new_transaction_run, Ho, Hs, Hy, Hrun.
  - unfold buffer, deref. simpl. by rewrite list_lookup_total_alter_eq.
Qed.

(** X11. Two blocks mined one after the other: the first takes the whole
    pending buffer and the second has no entry; the second follows the first
    in index and holds its hash. *)
Theorem mine_twice (s s1 s2 : state) (f1 f2 : nat) (n1 n2 : float) (r1 r2 : body * Z) :
  reachable s ->
  mine f1 n1 s = (Ret r1, s1) -> mine f2 n2 s1 = (Ret r2, s2) ->
  exists b1 b2,
    chain s2 = (chain s ++ [b1; b2])%list
    /\ deref (store s2) (data b1) = buffer s
    /\ deref (store s2) (data b2) = []
    /\ index b2 = index b1 + 1
    /\ previous_hash b2 = hash (store s2) (block_items b1)
    /\ buffer s2 = [].
Proof.
  intros Hr H1 H2.
  assert (Hrun1 : run (Mine f1 n1) s = Some s1) by (simpl; by rewrite H1).
  assert (Hrun2 : run (Mine f2 n2) s1 = Some s2) by (simpl; by rewrite H2).
  pose proof (reachable_inv s Hr) as Hi.
  pose proof (inv_run _ _ _ Hi Hrun1) as Hi1.
  pose proof (inv_run _ _ _ Hi1 Hrun2) as Hi2.
  destruct (run_cases _ _ _ Hi Hrun1)
    as [(? & ? & ? & [=] & _)|(? & ? & lb & p1 & [= <- <-] & Hl1 & Hp1 & ->)].
  destruct (run_cases _ _ _ Hi1 Hrun2)
    as [(? & ? & ? & [=] & _)|(? & ? & lb1 & p2 & [= <- <-] & Hl2 & Hp2 & ->)].
  simpl in Hl2. rewrite last_snoc in Hl2. injection Hl2 as <-.
  exists (sealed s n1 p1 lb), (sealed (after_seal s (sealed s n1 p1 lb)) n2 p2 (sealed s n1 p1 lb)).
  pose proof (inv_current s Hi) as Hcur.
  split; [simpl; by rewrite <- app_assoc|]. split; [|split; [|split; [|split]]].
  - unfold deref, buffer, deref. simpl.
    rewrite lookup_total_app_l by (rewrite length_app; simpl; lia).
    by rewrite lookup_total_app_l.
  - unfold deref. simpl. rewrite lookup_total_app_l by (rewrite length_app; simpl; lia).
    rewrite lookup_total_app_r by lia. by rewrite Nat.sub_diag.
  - simpl. rewrite length_app. simpl. lia.
  - apply (inv_link _ Hi2 (List.length (chain s))); simpl.
    + rewrite <- app_assoc. by apply list_lookup_middle.
    + rewrite lookup_app_r by (rewrite length_app; simpl; lia).
      rewrite length_app. simpl.
      by replace (S (List.length (chain s)) - (List.length (chain s) + 1))%nat with 0%nat by lia.
  - apply buffer_after_seal.
Qed.

(** X12. No list is shared: in a reachable state no block holds the
    pending buffer, so that [new_entry] changes no block, and two blocks at
    different positions hold different lists. *)
Theorem no_shared_list (s : state) :
  reachable s ->
  (forall i b, chain s !! i = Some b -> data b <> current_data s)
  /\ (forall i j b b', chain s !! i = Some b -> chain s !! j = Some b' -> i <> j ->
        data b <> data b').
Proof.
  intros [Hst Hcur Hdata]%reachable_layout. split.
  - intros i b Hb. rewrite (Hdata _ _ Hb), Hcur. apply lookup_lt_Some in Hb. lia.
  - intros i j b b' Hb Hb' Hij. by rewrite (Hdata _ _ Hb), (Hdata _ _ Hb').
Qed.

(** X13. Entries added in a row share their hint: in a reachable state every
    one of a series of [new_entry] returns the index of the last block plus
    1, the chain is unchanged, and a [mine] that follows and returns seals
    them all, in order and after what was pending, in one block of that
    index. *)
Theorem new_entries_hint (s : state) (es : list (atom * atom * atom)) :
  reachable s ->
  exists lb s1,
    last (chain s) = Some lb
    /\ new_entries es s = (Ret (repeat (index lb + 1) (List.length es)), s1)
    /\ chain s1 = chain s
    /\ buffer s1 = (buffer s ++ map (fun e => entry_of e.1.1 e.1.2 e.2) es)%list
    /\ forall fuel now r s2, mine fuel now s1 = (Ret r, s2) ->
         exists blk,
           chain s2 = (chain s ++ [blk])%list
           /\ index blk = index lb + 1
           /\ deref (store s2) (data blk)
              = (buffer s ++ map (fun e => entry_of e.1.1 e.1.2 e.2) es)%list.
Proof.
  intros Hi%reachable_inv. destruct (inv_last s Hi) as [lb Hlast].
  destruct (new_entries_run es s lb Hi Hlast) as (Hrun & Hi1 & Hchain & Hcur & Hbuf).
  exists lb, (after_entries s es). repeat (split; [done|]).
  intros fuel now r s2.
  assert (Hlast1 : last (chain (after_entries s es)) = Some lb) by (by rewrite Hchain).
  rewrite (mine_run _ fuel now lb Hlast1).
  destruct (proof_of_work fuel (proof lb)) as [p|]; [|done].
  intros [= <- <-]. eexists. split; [simpl; by rewrite Hchain|]. split.
  - simpl. rewrite Hchain. by rewrite (last_index s lb Hi Hlast).
  - rewrite deref_after_seal by apply (inv_current _ Hi1). exact Hbuf.
Qed.

(** X14. The sentinel marks the first block only: in a reachable state the
    previous hash of the first block is ['1'], and that of any other block
    is made of 64 lowercase hexadecimal digits. *)
Theorem previous_hash_shape (s : state) (i : nat) (b : block) :
  reachable s -> chain s !! i = Some b ->
  (i = 0%nat -> previous_hash b = "1")
  /\ (i <> 0%nat ->
      String.length (previous_hash b) = 64%nat
      /\ Forall (fun c => In c hex_chars) (list_ascii_of_string (previous_hash b))).
Proof.
  intros Hr Hb. split.
  - intros ->. destruct Hr as (now & ops & Hrun).
    destruct (run_all_genesis_first now ops s Hrun) as [Hg _].
    rewrite Hg in Hb. by injection Hb as <-.
  - intros Hi. destruct i as [|i]; [done|].
    pose proof (reachable_inv s Hr) as Hinv.
    destruct (chain s !! i) as [p|] eqn:Hp.
    + rewrite (inv_link s Hinv i p b Hp Hb). apply sha256_hexdigest_shape.
    + apply lookup_ge_None in Hp. apply lookup_lt_Some in Hb. lia.
Qed.

(** X15. The genesis block stays: after any run from the constructor called
    at time [now], the first block of the chain is the one the constructor
    made, with index 1, that time, proof 100 and previous hash ['1'], and it
    has no entry. *)
Theorem genesis_stays_first (now : float) (ops : list op) (s : state) :
  run_all ops (Blockchain now) = Some s ->
  chain s !! 0%nat
  = Some {| index := 1; timestamp := now; data := 0%nat; proof := 100; previous_hash := "1" |}
  /\ deref (store s) 0%nat = [].
Proof. apply run_all_genesis_first. Qed.

(** X16. Proofs are least: in a reachable state the proof of a block that
    has a predecessor is valid against the predecessor's proof, is not
    negative, and no smaller number that is not negative is valid. *)
Theorem proofs_are_least (s : state) (i : nat) (p b : block) :
  reachable s -> chain s !! i = Some p -> chain s !! S i = Some b ->
  valid_proof (proof p) (proof b) = true
  /\ 0 <= proof b
  /\ forall q, 0 <= q < proof b -> valid_proof (proof p) q = false.
Proof.
  intros Hr Hp Hb. split.
  - by apply (inv_proof s (reachable_inv s Hr) i).
  - by apply (reachable_least_proofs s Hr i).
Qed.

(** X17. The proofs do not depend on what is stored: two reachable states,
    whatever entries and times they went through, have the same proof at
    every position that both chains have. *)
Theorem proofs_independent_of_entries (s s' : state) (i : nat) (b b' : block) :
  reachable s -> reachable s' ->
  chain s !! i = Some b -> chain s' !! i = Some b' ->
  proof b = proof b'.
Proof.
  intros Hr Hr'. revert b b'. induction i as [|i IH]; intros b b' Hb Hb'.
  - destruct Hr as (now & ops & Hrun). destruct Hr' as (now' & ops' & Hrun').
    destruct (run_all_genesis_first _ _ _ Hrun) as [Hg _].
    destruct (run_all_genesis_first _ _ _ Hrun') as [Hg' _].
    rewrite Hg in Hb. rewrite Hg' in Hb'. by injection Hb as <-; injection Hb' as <-.
  - destruct (chain s !! i) as [p|] eqn:Hp;
      [|apply lookup_ge_None in Hp; apply lookup_lt_Some in Hb; lia].
    destruct (chain s' !! i) as [p'|] eqn:Hp';
      [|apply lookup_ge_None in Hp'; apply lookup_lt_Some in Hb'; lia].
    pose proof (IH p p' eq_refl eq_refl) as Hpp.
    pose proof (inv_proof s (reachable_inv s Hr) i p b Hp Hb) as Hv.
    pose proof (inv_proof s' (reachable_inv s' Hr') i p' b' Hp' Hb') as Hv'.
    destruct (reachable_least_proofs s Hr i p b Hp Hb) as [H0 Hmin].
    destruct (reachable_least_proofs s' Hr' i p' b' Hp' Hb') as [H0' Hmin'].
    rewrite <- Hpp in Hv', Hmin'.
    destruct (Z.lt_trichotomy (proof b) (proof b')) as [Hlt|[Heq|Hgt]]; [|done|].
    + rewrite Hmin' in Hv by lia. done.
    + rewrite Hmin in Hv' by lia. done.
Qed.
End Extras.

(** ** The longer run evaluated *)

Section Run2.
#[local] Existing Instance float_repr_cpython.

Lemma run_all_step o ops s s1 :
  run o s = Some s1 -> run_all (o :: ops) s = run_all ops s1.
Proof. intros Ho. simpl. by rewrite Ho. Qed.

Lemma mine_found s fuel now lb p :
  last (chain s) = Some lb -> proof_of_work fuel (proof lb) = Some p ->
  mine fuel now s
  = (Ret (Jsonify [("message", VStr "Nowy Blok");
                   ("index", VInt (index (sealed s now p lb)));
                   ("transactions", VData (data (sealed s now p lb)));
                   ("proof", VInt (proof (sealed s now p lb)));
                   ("previous_hash", VStr (previous_hash (sealed s now p lb)))], 200),
     after_seal s (sealed s now p lb)).
Proof. intros Hl Hp. by rewrite (mine_run s fuel now lb Hl), Hp. Qed.

(** The search against 35293 stops at 35089. *)
Lemma proof_of_work_35293 : proof_of_work enough_fuel 35293 = Some 35089.
Proof. vm_cast_no_check (eq_refl (Some 35089)). Qed.

Lemma mine_pending : mine enough_fuel t1 pending_state = (Ret second_response, mined_state).
Proof.
  etrans; [exact (mine_found pending_state enough_fuel t1 genesis 35293 eq_refl
                    proof_of_work_100)|].
  vm_compute. reflexivity.
Qed.

Lemma mine_mined : mine enough_fuel t2 mined_state = (Ret third_response, twice_mined_state).
Proof.
  etrans; [exact (mine_found mined_state enough_fuel t2 second 35089 eq_refl
                    proof_of_work_35293)|].
  vm_compute. reflexivity.
Qed.

Lemma twice_mined_state_run :
  run (Mine enough_fuel t2) mined_state = Some twice_mined_state.
Proof.
  etrans;
    [exact (run_mine mined_state enough_fuel t2 second 35089 eq_refl proof_of_work_35293)|].
  vm_compute. reflexivity.
Qed.

Lemma bare_mined_state_run : run (Mine enough_fuel t2) fresh_state = Some bare_mined_state.
Proof.
  etrans;
    [exact (run_mine fresh_state enough_fuel t2 genesis 35293 eq_refl proof_of_work_100)|].
  vm_compute. reflexivity.
Qed.

Lemma twice_mined_state_reachable : reachable twice_mined_state.
Proof.
  exact (reachable_run _ _ _ mined_state_reachable twice_mined_state_run).
Qed.

Lemma bare_mined_state_reachable : reachable bare_mined_state.
Proof.
  exact (reachable_run _ _ _ fresh_state_reachable bare_mined_state_run).
Qed.

Lemma mines_run :
  run_all [Mine enough_fuel t1; Mine enough_fuel t2] pending_state = Some twice_mined_state.
Proof.
  etrans; [exact (run_all_step _ _ _ _ mined_state_run)|].
  etrans; [exact (run_all_step _ _ _ _ twice_mined_state_run)|].
  reflexivity.
Qed.

Lemma run_ops_run : run_all run_ops (Blockchain t0) = Some twice_mined_state.
Proof.
  etrans; [exact (run_all_step _ _ (Blockchain t0) _ pending_state_run)|].
  exact mines_run.
Qed.
End Run2.

(** ** The further properties on the runs *)

Section ExtraWitnesses.
#[local] Existing Instance float_repr_cpython.

Lemma index_is_position_witness :
  reachable twice_mined_state
  /\ chain twice_mined_state !! 2%nat = Some third
  /\ index third = Z.of_nat 2 + 1.
Proof.
  split; [exact twice_mined_state_reachable|]. split; [reflexivity|].
  exact (index_is_position twice_mined_state 2 third twice_mined_state_reachable eq_refl).
Defined.

Lemma entries_conserved_witness :
  run_all run_ops (Blockchain t0) = Some twice_mined_state
  /\ (sealed_entries twice_mined_state ++ buffer twice_mined_state)%list
     = submitted run_ops.
Proof.
  split; [exact run_ops_run|].
  exact (entries_conserved t0 run_ops twice_mined_state run_ops_run).
Defined.

Lemma full_chain_length_witness :
  run_all run_ops (Blockchain t0) = Some twice_mined_state
  /\ full_chain twice_mined_state
     = (Ret ([("chain", FChain (chain twice_mined_state));
              ("length", FLength (1 + Z.of_nat (mines run_ops)))], 200),
        twice_mined_state).
Proof.
  split; [exact run_ops_run|].
  exact (full_chain_length t0 run_ops twice_mined_state run_ops_run).
Defined.

Lemma chain_append_only_witness :
  reachable pending_state
  /\ run_all [Mine enough_fuel t1; Mine enough_fuel t2] pending_state
     = Some twice_mined_state
  /\ (exists added, chain twice_mined_state = (chain pending_state ++ added)%list)
  /\ forall b, b ∈ chain pending_state ->
       deref (store twice_mined_state) (data b) = deref (store pending_state) (data b)
       /\ hash (store twice_mined_state) (block_items b)
          = hash (store pending_state) (block_items b).
Proof.
  split; [exact pending_state_reachable|]. split; [exact mines_run|].
  exact (chain_append_only pending_state twice_mined_state
           [Mine enough_fuel t1; Mine enough_fuel t2] pending_state_reachable mines_run).
Defined.

Lemma no_exception_witness :
  reachable mined_state
  /\ (exists lb, last_block mined_state = (Ret lb, mined_state))
  /\ (forall owner stamp year,
        exists n s', new_entry owner stamp year mined_state = (Ret n, s'))
  /\ (forall now p ph, exists blk s', new_block now p ph mined_state = (Ret blk, s'))
  /\ (forall d : entry, exists r s', new_transaction (AObj d) mined_state = (Ret r, s'))
  /\ (forall body e s', new_transaction body mined_state = (Raise e, s') ->
        e = TypeError /\ (forall d, body <> AObj d) /\ s' = mined_state)
  /\ (forall fuel now e, fst (mine fuel now mined_state) <> Raise e).
Proof.
  split; [exact mined_state_reachable|].
  exact (no_exception mined_state mined_state_reachable).
Defined.

(** The call of the constructor, and the same call with an empty string. *)
Lemma new_block_previous_hash_witness :
  (new_block t0 100 (Some "") emptied_state = new_block t0 100 None emptied_state)
  /\ "1" <> ""
  /\ new_block t0 100 (Some "1") emptied_state = (Ret genesis, fresh_state).
Proof.
  split; [|split].
  - apply (proj1 (new_block_previous_hash emptied_state t0 100 "")). reflexivity.
  - discriminate.
  - apply (proj2 (new_block_previous_hash emptied_state t0 100 "1")). discriminate.
Defined.

Lemma empty_chain_raises_witness :
  chain emptied_state = []
  /\ last_block emptied_state = (Raise IndexError, emptied_state)
  /\ (forall now p, new_block now p None emptied_state = (Raise IndexError, emptied_state))
  /\ (forall fuel now, mine fuel now emptied_state = (Raise IndexError, emptied_state))
  /\ full_chain emptied_state
     = (Ret ([("chain", FChain []); ("length", FLength 0)], 200), emptied_state).
Proof.
  split; [reflexivity|]. exact (empty_chain_raises emptied_state eq_refl).
Defined.

Lemma new_entry_empty_chain_witness :
  chain emptied_state = []
  /\ (current_data emptied_state < List.length (store emptied_state))%nat
  /\ get "owner" alice = Some (AStr "Alice")
  /\ get "stamp" alice = Some (AStr "Penny Black")
  /\ get "year" alice = Some (AInt 1840)
  /\ new_entry (AStr "Alice") (AStr "Penny Black") (AInt 1840) emptied_state
     = (Raise IndexError, after_entry emptied_state alice)
  /\ new_transaction (AObj alice) emptied_state
     = (Raise IndexError, after_entry emptied_state alice)
  /\ buffer (after_entry emptied_state alice) = (buffer emptied_state ++ [alice])%list.
Proof.
  split; [reflexivity|]. split; [simpl; lia|].
  split; [reflexivity|]. split; [reflexivity|]. split; [reflexivity|].
  apply (new_entry_empty_chain emptied_state alice (AStr "Alice") (AStr "Penny Black")
           (AInt 1840)); [reflexivity|simpl; lia|reflexivity|reflexivity|reflexivity].
Defined.

Lemma mine_twice_witness :
  reachable pending_state
  /\ mine enough_fuel t1 pending_state = (Ret second_response, mined_state)
  /\ mine enough_fuel t2 mined_state = (Ret third_response, twice_mined_state)
  /\ exists b1 b2,
       chain twice_mined_state = (chain pending_state ++ [b1; b2])%list
       /\ deref (store twice_mined_state) (data b1) = buffer pending_state
       /\ deref (store twice_mined_state) (data b2) = []
       /\ index b2 = index b1 + 1
       /\ previous_hash b2 = hash (store twice_mined_state) (block_items b1)
       /\ buffer twice_mined_state = [].
Proof.
  split; [exact pending_state_reachable|]. split; [exact mine_pending|].
  split; [exact mine_mined|].
  exact (mine_twice pending_state mined_state twice_mined_state enough_fuel enough_fuel
           t1 t2 second_response third_response pending_state_reachable mine_pending
           mine_mined).
Defined.

(** Right after the constructor, and after two blocks mined. *)
Lemma no_shared_list_witness :
  (reachable fresh_state
   /\ chain fresh_state !! 0%nat = Some genesis
   /\ data genesis <> current_data fresh_state)
  /\ (reachable twice_mined_state
      /\ chain twice_mined_state !! 1%nat = Some second
      /\ chain twice_mined_state !! 2%nat = Some third
      /\ 1%nat <> 2%nat
      /\ data second <> current_data twice_mined_state
      /\ data second <> data third).
Proof.
  split.
  - split; [exact fresh_state_reachable|]. split; [reflexivity|].
    exact (proj1 (no_shared_list fresh_state fresh_state_reachable) 0%nat genesis eq_refl).
  - split; [exact twice_mined_state_reachable|]. split; [reflexivity|].
    split; [reflexivity|]. split; [lia|]. split.
    + exact (proj1 (no_shared_list twice_mined_state twice_mined_state_reachable)
               1%nat second eq_refl).
    + apply (proj2 (no_shared_list twice_mined_state twice_mined_state_reachable)
               1%nat 2%nat second third); [reflexivity|reflexivity|lia].
Defined.

Lemma new_entries_hint_witness :
  let es := [(AStr "Alice", AStr "Penny Black", AInt 1840);
             (AStr "Bob", AStr "Inverted Jenny", AInt 1918)] in
  reachable mined_state
  /\ exists lb s1,
       last (chain mined_state) = Some lb
       /\ new_entries es mined_state = (Ret (repeat (index lb + 1) (List.length es)), s1)
       /\ chain s1 = chain mined_state
       /\ buffer s1
          = (buffer mined_state ++ map (fun e => entry_of e.1.1 e.1.2 e.2) es)%list
       /\ forall fuel now r s2, mine fuel now s1 = (Ret r, s2) ->
            exists blk,
              chain s2 = (chain mined_state ++ [blk])%list
              /\ index blk = index lb + 1
              /\ deref (store s2) (data blk)
                 = (buffer mined_state ++ map (fun e => entry_of e.1.1 e.1.2 e.2) es)%list.
Proof.
  intros es. split; [exact mined_state_reachable|].
  exact (new_entries_hint mined_state es mined_state_reachable).
Defined.

Lemma previous_hash_shape_witness :
  reachable twice_mined_state
  /\ chain twice_mined_state !! 2%nat = Some third
  /\ (2%nat = 0%nat -> previous_hash third = "1")
  /\ (2%nat <> 0%nat ->
      String.length (previous_hash third) = 64%nat
      /\ Forall (fun c => In c hex_chars) (list_ascii_of_string (previous_hash third))).
Proof.
  split; [exact twice_mined_state_reachable|]. split; [reflexivity|].
  exact (previous_hash_shape twice_mined_state 2 third twice_mined_state_reachable eq_refl).
Defined.

Lemma genesis_stays_first_witness :
  run_all run_ops (Blockchain t0) = Some twice_mined_state
  /\ chain twice_mined_state !! 0%nat
     = Some {| index := 1; timestamp := t0; data := 0%nat; proof := 100;
               previous_hash := "1" |}
  /\ deref (store twice_mined_state) 0%nat = [].
Proof.
  split; [exact run_ops_run|].
  exact (genesis_stays_first t0 run_ops twice_mined_state run_ops_run).
Defined.

Lemma proofs_are_least_witness :
  reachable twice_mined_state
  /\ chain twice_mined_state !! 1%nat = Some second
  /\ chain twice_mined_state !! 2%nat = Some third
  /\ valid_proof (proof second) (proof third) = true
  /\ 0 <= proof third
  /\ forall q, 0 <= q < proof third -> valid_proof (proof second) q = false.
Proof.
  split; [exact twice_mined_state_reachable|]. split; [reflexivity|].
  split; [reflexivity|].
  exact (proofs_are_least twice_mined_state 1 second third twice_mined_state_reachable
           eq_refl eq_refl).
Defined.

(** A block mined with an entry pending and one mined with none. *)
Lemma proofs_independent_of_entries_witness :
  reachable mined_state /\ reachable bare_mined_state
  /\ chain mined_state !! 1%nat = Some second
  /\ chain bare_mined_state !! 1%nat = Some bare_second
  /\ proof second = proof bare_second.
Proof.
  split; [exact mined_state_reachable|]. split; [exact bare_mined_state_reachable|].
  split; [reflexivity|]. split; [reflexivity|].
  exact (proofs_independent_of_entries mined_state bare_mined_state 1 second bare_second
           mined_state_reachable bare_mined_state_reachable eq_refl eq_refl).
Defined.
End ExtraWitnesses.
